(** * A/B test analyzer ([ab_tester.py]): model and verified properties

    The analysis engine of [ab_tester.py] is embedded function by function:
    [winsorize_series], [check_inputs], [welch_t_test], [mann_whitney],
    [bootstrap_lift_ci] and [analyze_ab].  The engine calls into pandas,
    numpy and scipy; the operations it uses are modelled in the modules
    [np], [pd] and [st] below, from the libraries' documented behaviour.

    Numbers.  Python floats are idealised as exact rationals ([Qc], the
    canonical rationals, whose equality is Leibniz equality), extended with
    [NaN] where the code can produce or test for it.  Rounding, overflow and
    infinities of binary floating point are outside the model, except in the
    Welch statistic, whose square root lives in [R] and whose division by a
    zero standard error is modelled explicitly. *)

From Stdlib Require Import String Ascii Bool Arith ZArith Lia List.
From Stdlib Require Import QArith Qcanon Qround Qreduction Reals Qreals Psatz.
From Stdlib Require Import Permutation Sorted.
Import ListNotations.

Set Implicit Arguments.

(** ** Python results: a value or a raised exception *)

(** The exceptions the engine can raise, one constructor per [raise] site of
    [ab_tester.py] or per library call that can fail on the engine's inputs. *)
Inductive error : Type :=
| Missing_required_columns (missing : list string)
    (* ValueError, check_inputs line 62 *)
| No_data_after_dropping_NA
    (* ValueError, check_inputs line 65 *)
| Expected_exactly_2_groups (found : nat)
    (* ValueError, check_inputs line 70 *)
| To_numeric_TypeError
    (* TypeError of pd.to_numeric on a two-dimensional argument *)
| Unorderable_labels
    (* TypeError of sorted() on labels of different kinds *)
| Percentile_out_of_range
    (* ValueError of Series.quantile / np.quantile for q outside [0, 1] *)
| Quantile_of_empty_array
    (* IndexError of np.quantile on an array of size 0 *)
| Negative_dimensions
    (* ValueError of np.empty for a negative size *)
| Negative_seed
    (* ValueError of np.random.default_rng for a negative seed *)
| Index_out_of_range.
    (* IndexError of list indexing *)

Inductive result (A : Type) : Type :=
| Ok (x : A)
| Err (e : error).

Arguments Ok {A} x.
Arguments Err {A} e.

Definition bind {A B : Type} (r : result A) (k : A -> result B) : result B :=
  match r with
  | Ok x => k x
  | Err e => Err e
  end.

Declare Scope py_scope.
Delimit Scope py_scope with py.
Notation "x <- c ;; k" := (bind c (fun x => k))
  (at level 61, c at next level, right associativity) : py_scope.
Notation "' pat <- c ;; k" := (bind c (fun x => match x with pat => k end))
  (at level 61, pat pattern, c at next level, right associativity) : py_scope.

(** ** Numbers *)

Local Open Scope Qc_scope.

Definition Qc_of_Z (z : Z) : Qc := Q2Qc (inject_Z z).
Definition Qc_of_nat (n : nat) : Qc := Qc_of_Z (Z.of_nat n).

Definition Qcleb (x y : Qc) : bool := Qle_bool x y.
Definition Qcltb (x y : Qc) : bool := negb (Qle_bool y x).
Definition Qceqb (x y : Qc) : bool := Qc_eq_bool x y.

Definition Qcmin (x y : Qc) : Qc := if Qcleb x y then x else y.
Definition Qcmax (x y : Qc) : Qc := if Qcleb x y then y else x.

(** A float of the engine: a finite number or NaN. *)
Inductive float : Type :=
| NaN
| Fin (x : Qc).

Definition isnan (x : float) : bool :=
  match x with NaN => true | Fin _ => false end.

(** [x == 0] on floats; a comparison with NaN is false. *)
Definition feq0 (x : float) : bool :=
  match x with NaN => false | Fin q => Qceqb q 0 end.

Definition fsub (x y : float) : float :=
  match x, y with
  | Fin a, Fin b => Fin (a - b)
  | _, _ => NaN
  end.

(** Division.  Every division of the engine on this type is guarded by a test
    that the divisor is not zero; the quotient by zero is given as NaN. *)
Definition fdiv (x y : float) : float :=
  match x, y with
  | Fin a, Fin b => if Qceqb b 0 then NaN else Fin (a / b)
  | _, _ => NaN
  end.

(** A numeric column without missing values, as [check_inputs] returns it. *)
Definition Series : Type := list Qc.

(** ** numpy *)

Module np.

Definition sum (xs : list Qc) : Qc := fold_right Qcplus 0 xs.

(** [ndarray.mean()] / [Series.mean()]: NaN on an empty array. *)
Definition mean (xs : list Qc) : float :=
  match xs with
  | [] => NaN
  | _ :: _ => Fin (sum xs / Qc_of_nat (length xs))
  end.

(** Ascending sort, by insertion. *)
Fixpoint insert (x : Qc) (l : list Qc) : list Qc :=
  match l with
  | [] => [x]
  | y :: l' => if Qcleb x y then x :: y :: l' else y :: insert x l'
  end.

Fixpoint sort (l : list Qc) : list Qc :=
  match l with
  | [] => []
  | x :: l' => insert x (sort l')
  end.

(** The [q]-quantile of a non-empty array by linear interpolation between
    order statistics (numpy's default method ["linear"]): with the virtual
    index [h = q * (n - 1)], the result is
    [sorted[floor h] + (sorted[floor h + 1] - sorted[floor h]) * (h - floor h)],
    the upper index being kept inside the array. *)
Definition virtual_index (n : nat) (q : Qc) : Qc := q * Qc_of_Z (Z.of_nat n - 1).

Definition lerp (a b gamma : Qc) : Qc := a + (b - a) * gamma.

Definition linear_quantile (xs : list Qc) (q : Qc) : Qc :=
  let sorted := sort xs in
  let n := length xs in
  let h := virtual_index n q in
  let previous_index := Z.to_nat (Qfloor h) in
  let next_index := Nat.min (S previous_index) (n - 1) in
  let gamma := h - Qc_of_Z (Qfloor h) in
  lerp (nth previous_index sorted 0) (nth next_index sorted 0) gamma.

Definition valid_percentile (q : Qc) : bool := Qcleb 0 q && Qcleb q 1.

(** [np.quantile(a, q)]: [q] is validated first; an empty array has no
    order statistic to take and the call raises IndexError (numpy 1.22 and
    later). *)
Definition quantile (xs : list Qc) (q : Qc) : result Qc :=
  if negb (valid_percentile q) then Err Percentile_out_of_range
  else match xs with
       | [] => Err Quantile_of_empty_array
       | _ :: _ => Ok (linear_quantile xs q)
       end.

End np.

(** ** pandas *)

Module pd.

(** *** Series operations of the Winsorizer *)

(** The calls a function makes into the library are recorded, so that a
    statement can say which operations ran. *)
Inductive call : Type :=
| call_quantile (q : Qc)
| call_clip (lower upper : float).

Definition traced (A : Type) : Type := (list call * result A)%type.

Definition ret {A : Type} (x : A) : traced A := ([], Ok x).

Definition tbind {A B : Type} (m : traced A) (k : A -> traced B) : traced B :=
  match m with
  | (log, Ok x) => let (log', r) := k x in (log ++ log', r)
  | (log, Err e) => (log, Err e)
  end.

Definition calls {A : Type} (m : traced A) : list call := fst m.
Definition value {A : Type} (m : traced A) : result A := snd m.

(** [Series.quantile(q)] with the default linear interpolation: [q]
    outside [0, 1] raises ValueError; an empty Series gives NaN. *)
Definition quantile (s : Series) (q : Qc) : traced float :=
  ([call_quantile q],
   if negb (np.valid_percentile q) then Err Percentile_out_of_range
   else match s with
        | [] => Ok NaN
        | _ :: _ => Ok (Fin (np.linear_quantile s q))
        end).

Definition clip_below (lower : Qc) (x : Qc) : Qc := if Qcltb x lower then lower else x.
Definition clip_above (upper : Qc) (x : Qc) : Qc := if Qcltb upper x then upper else x.

Definition clip_between (lo hi x : Qc) : Qc := clip_above hi (clip_below lo x).

(** [Series.clip(lower, upper)]: a NaN threshold is no bound; two scalar
    thresholds given in the wrong order are swapped; a new Series is
    returned. *)
Definition clip (s : Series) (lower upper : float) : traced Series :=
  ([call_clip lower upper],
   Ok match lower, upper with
      | NaN, NaN => s
      | Fin l, NaN => map (clip_below l) s
      | NaN, Fin u => map (clip_above u) s
      | Fin l, Fin u => map (clip_between (Qcmin l u) (Qcmax l u)) s
      end).

(** *** Frames *)

(** A cell of a frame read from a delimited-text source: missing, text, or
    a number. *)
Inductive cell : Type :=
| NA
| Text (s : string)
| Number (x : Qc).

Definition isna (c : cell) : bool :=
  match c with NA => true | _ => false end.

(** Elementwise [==]: text equals text, a number equals a number, and a
    missing value equals nothing. *)
Definition cell_eqb (x y : cell) : bool :=
  match x, y with
  | Text a, Text b => String.eqb a b
  | Number a, Number b => Qceqb a b
  | _, _ => false
  end.

(** A frame: its column names and its rows, a row giving the cell of each
    column. *)
Record DataFrame : Type := {
  columns : list string;
  rows : list (string -> cell)
}.

Definition has_column (df : DataFrame) (c : string) : bool :=
  existsb (String.eqb c) (columns df).

(** [df[[group_col, value_col]]] as the list of its rows. *)
Definition select2 (df : DataFrame) (group_col value_col : string)
  : list (cell * cell) :=
  map (fun r => (r group_col, r value_col)) (rows df).

(** [DataFrame.dropna()]: rows with a missing value in any column go. *)
Definition dropna (fr : list (cell * cell)) : list (cell * cell) :=
  filter (fun gv => negb (isna (fst gv)) && negb (isna (snd gv))) fr.

(** [pd.to_numeric(_, errors="coerce")] on one cell: a number stays, text
    is parsed by [parse] (NaN when [parse] rejects it), missing is NaN. *)
Definition to_numeric (parse : string -> float) (c : cell) : float :=
  match c with
  | NA => NaN
  | Text s => parse s
  | Number x => Fin x
  end.

Definition to_numeric_column (parse : string -> float) (fr : list (cell * cell))
  : list (cell * float) :=
  map (fun gv => (fst gv, to_numeric parse (snd gv))) fr.

(** [DataFrame.dropna(subset=[value_col])] on the coerced frame. *)
Definition dropna_value (fr : list (cell * float)) : list (cell * Qc) :=
  flat_map (fun gv => match snd gv with
                      | NaN => []
                      | Fin x => [(fst gv, x)]
                      end) fr.

(** [Series.unique()]: the distinct values in order of first appearance. *)
Fixpoint unique (l : list cell) : list cell :=
  match l with
  | [] => []
  | x :: l' => x :: filter (fun y => negb (cell_eqb x y)) (unique l')
  end.

(** [Series.nunique()]. *)
Definition nunique (l : list cell) : nat := length (unique l).

(** [df.loc[df[group_col] == label, value_col]], re-indexed from 0. *)
Definition loc (fr : list (cell * Qc)) (label : cell) : Series :=
  map snd (filter (fun gv => cell_eqb (fst gv) label) fr).

End pd.

Notation "x <~ c ;; k" := (pd.tbind c (fun x => k))
  (at level 61, c at next level, right associativity) : py_scope.

Local Open Scope py_scope.

(** ** Winsorizer ([winsorize_series], lines 48-56) *)

Definition winsorize_series (s : Series) (p : Qc) : pd.traced Series :=
  if Qcleb p 0 then pd.ret s
  else
    lower <~ pd.quantile s p ;;
    upper <~ pd.quantile s (1 - p) ;;
    pd.clip s lower upper.

(** The Winsorizer as a function on values. *)
Definition winsorize (s : Series) (p : Qc) : result Series :=
  pd.value (winsorize_series s p).

(** ** Python built-ins on group labels *)

Module py.

(** [x < y] on labels: text is compared lexicographically (byte by byte,
    which on UTF-8 text is the order of the code points), numbers
    numerically; a comparison across kinds raises TypeError. *)
Definition lt (x y : pd.cell) : result bool :=
  match x, y with
  | pd.Text a, pd.Text b => Ok (String.ltb a b)
  | pd.Number a, pd.Number b => Ok (Qcltb a b)
  | _, _ => Err Unorderable_labels
  end.

(** [sorted]: a stable ascending sort that only asks [<]. *)
Fixpoint insert (x : pd.cell) (l : list pd.cell) : result (list pd.cell) :=
  match l with
  | [] => Ok [x]
  | y :: l' =>
      c <- lt y x ;;
      if c then (r <- insert x l' ;; Ok (y :: r))
      else Ok (x :: y :: l')
  end.

Fixpoint sorted (l : list pd.cell) : result (list pd.cell) :=
  match l with
  | [] => Ok []
  | x :: l' => r <- sorted l' ;; insert x r
  end.

(** [{group_col, value_col} - set(columns)]. *)
Definition set_difference (names cols : list string) : list string :=
  filter (fun c => negb (existsb (String.eqb c) cols)) (nodup string_dec names).

End py.

(** ** Input Validator / Group Splitter ([check_inputs], lines 59-76) *)

Section Validator.

(** The numeric parser behind [pd.to_numeric]; NaN for unparsable text. *)
Variable parse : string -> float.

(** The frame of line 68: the two columns after both [dropna]s and the
    coercion. *)
Definition cleaned (df : pd.DataFrame) (group_col value_col : string)
  : list (pd.cell * Qc) :=
  pd.dropna_value
    (pd.to_numeric_column parse (pd.dropna (pd.select2 df group_col value_col))).

Definition check_inputs (df : pd.DataFrame) (group_col value_col : string)
  : result (Series * Series) :=
  if negb (pd.has_column df group_col) || negb (pd.has_column df value_col) then
    Err (Missing_required_columns
           (py.set_difference [group_col; value_col] (pd.columns df)))
  else
    let df1 := pd.dropna (pd.select2 df group_col value_col) in
    match df1 with
    | [] => Err No_data_after_dropping_NA
    | _ :: _ =>
        (* with one name for both columns, df[value_col] is a frame of two
           columns and to_numeric rejects it *)
        if String.eqb group_col value_col then Err To_numeric_TypeError
        else
          let df2 := pd.dropna_value (pd.to_numeric_column parse df1) in
          let labels := map fst df2 in
          if negb (pd.nunique labels =? 2)%nat then
            Err (Expected_exactly_2_groups (pd.nunique labels))
          else
            groups <- py.sorted (pd.unique labels) ;;
            match groups with
            | [a_label; b_label] => Ok (pd.loc df2 a_label, pd.loc df2 b_label)
            | _ => Err Index_out_of_range
            end
    end.

End Validator.

(** ** scipy.stats *)

Module st.

(** A float whose finite values are real numbers: the Welch statistic needs
    a square root, and its division can be by zero. *)
Inductive xreal : Type :=
| XNaN
| XInf (negative : bool)
| XFin (r : R).

Definition fplus (x y : float) : float :=
  match x, y with
  | Fin a, Fin b => Fin (a + b)
  | _, _ => NaN
  end.

Definition fmult (x y : float) : float :=
  match x, y with
  | Fin a, Fin b => Fin (a * b)
  | _, _ => NaN
  end.

(** Sum of squared deviations from [m]. *)
Definition sum_sq_dev (m : Qc) (xs : list Qc) : Qc :=
  np.sum (map (fun x => (x - m) * (x - m)) xs).

(** [np.var(a, ddof=1)]: the unbiased sample variance; with fewer than two
    observations the division is 0/0 and the result NaN. *)
Definition var_ddof1 (xs : list Qc) : float :=
  match np.mean xs with
  | NaN => NaN
  | Fin m => fdiv (Fin (sum_sq_dev m xs)) (Fin (Qc_of_Z (Z.of_nat (length xs) - 1)))
  end.

(** [vn = v / n], the squared standard error of one mean. *)
Definition var_over_n (xs : list Qc) : float :=
  fdiv (var_ddof1 xs) (Fin (Qc_of_nat (length xs))).

(** [_unequal_var_ttest_denom]: the Welch-Satterthwaite degrees of freedom
    (an undefined value is replaced by 1) and the squared denominator. *)
Definition welch_df (a b : list Qc) : Qc :=
  let vn1 := var_over_n a in
  let vn2 := var_over_n b in
  let n1 := Fin (Qc_of_Z (Z.of_nat (length a) - 1)) in
  let n2 := Fin (Qc_of_Z (Z.of_nat (length b) - 1)) in
  match fdiv (fmult (fplus vn1 vn2) (fplus vn1 vn2))
             (fplus (fdiv (fmult vn1 vn1) n1) (fdiv (fmult vn2 vn2) n2)) with
  | NaN => 1
  | Fin d => d
  end.

Definition standard_error_sq (a b : list Qc) : float :=
  fplus (var_over_n a) (var_over_n b).

(** [np.divide(d, np.sqrt(v))] under IEEE rules: NaN propagates, 0/0 is
    NaN, a non-zero number over zero is an infinity of its sign. *)
Definition divide_by_sqrt (d v : float) : xreal :=
  match d, v with
  | Fin d, Fin v =>
      if Qceqb v 0 then
        (if Qceqb d 0 then XNaN else XInf (Qcltb d 0))
      else XFin (Q2R d / sqrt (Q2R v))
  | _, _ => XNaN
  end.

(** The statistic of [ttest_ind(a, b, equal_var=False)]:
    [(mean(a) - mean(b)) / sqrt(var(a)/len(a) + var(b)/len(b))]. *)
Definition welch_statistic (a b : list Qc) : xreal :=
  divide_by_sqrt (fsub (np.mean a) (np.mean b)) (standard_error_sq a b).

Section Distribution.

(** [t_sf df x]: the survival function of Student's t distribution with
    [df] degrees of freedom, a function of the library. *)
Variable t_sf : R -> R -> R.

(** The two-sided p-value [2 * sf(|t|)]; the survival function vanishes
    at infinity. *)
Definition two_sided_pvalue (df : Qc) (t : xreal) : xreal :=
  match t with
  | XNaN => XNaN
  | XInf _ => XFin 0
  | XFin r => XFin (2 * t_sf (Q2R df) (Rabs r))
  end.

Definition ttest_ind_welch (a b : list Qc) : xreal * xreal :=
  let t := welch_statistic a b in
  (t, two_sided_pvalue (welch_df a b) t).

End Distribution.

End st.

(** ** Hypothesis Test Engine ([welch_t_test], [mann_whitney], lines 79-86) *)

Section HypothesisTests.

Variable t_sf : R -> R -> R.

(** [st.mannwhitneyu(a, b, alternative="two-sided")], a function of the
    library: the U statistic and its p-value.  No property below depends on
    its values; the engine calls it on non-empty samples only. *)
Variable mannwhitneyu : Series -> Series -> float * float.

Definition welch_t_test (a b : Series) : result (st.xreal * st.xreal) :=
  let '(t, p) := st.ttest_ind_welch t_sf a b in
  Ok (t, p).

Definition mann_whitney (a b : Series) : result (float * float) :=
  let '(u, p) := mannwhitneyu a b in
  Ok (u, p).

End HypothesisTests.

(** ** numpy.random and uninitialised arrays *)

Module rnd.

(** A bit generator: a state, its seeding, and one raw draw. *)
Record BitGenerator : Type := {
  state : Type;
  seed_state : N -> state;
  next_raw : state -> N * state
}.

(** What a call can read from outside its arguments: the entropy of the
    operating system, taken when no seed is given, and the contents of
    memory that [np.empty] hands out without initialising it. *)
Record World : Type := {
  os_entropy : N;
  uninitialised : nat -> float
}.

Section Generator.

Variable G : BitGenerator.

(** [np.random.default_rng(seed)]: a fresh generator, seeded from [seed],
    or from the system's entropy for [None]. *)
Definition default_rng (seed : option Z) (w : World) : result (state G) :=
  match seed with
  | None => Ok (seed_state G (os_entropy w))
  | Some z => if (z <? 0)%Z then Err Negative_seed
              else Ok (seed_state G (Z.to_N z))
  end.

(** One index below [n], from one raw draw. *)
Definition integers (rng : state G) (n : nat) : nat * state G :=
  let (r, rng') := next_raw G rng in
  (N.to_nat (r mod N.of_nat n), rng').

(** [rng.choice(a, size=size, replace=True)]. *)
Fixpoint choice (rng : state G) (a : list Qc) (size : nat)
  : list Qc * state G :=
  match size with
  | O => ([], rng)
  | S k =>
      let (i, rng1) := integers rng (length a) in
      let (rest, rng2) := choice rng1 a k in
      (nth i a 0 :: rest, rng2)
  end.

End Generator.

(** [np.empty(n, dtype=float)]. *)
Definition empty (w : World) (n : Z) : result (list float) :=
  if (n <? 0)%Z then Err Negative_dimensions
  else Ok (map (uninitialised w) (seq 0 (Z.to_nat n))).

(** [lifts[i] = v]. *)
Fixpoint setitem (l : list float) (i : nat) (v : float) : list float :=
  match l, i with
  | [], _ => []
  | _ :: l', O => v :: l'
  | x :: l', S i' => x :: setitem l' i' v
  end.

(** [lifts[~np.isnan(lifts)]]. *)
Definition not_nan (l : list float) : list Qc :=
  flat_map (fun x => match x with NaN => [] | Fin v => [v] end) l.

End rnd.

(** ** Bootstrap Estimator ([bootstrap_lift_ci], lines 89-106) *)

Section Bootstrap.

Variable G : rnd.BitGenerator.

(** One turn of the loop of lines 94-102, on the generator and the array
    [lifts]. *)
Definition bootstrap_iteration (a_vals b_vals : list Qc)
    (st : rnd.state G * list float) (i : nat) : rnd.state G * list float :=
  let '(rng, lifts) := st in
  let '(a_s, rng) := rnd.choice G rng a_vals (length a_vals) in
  let '(b_s, rng) := rnd.choice G rng b_vals (length b_vals) in
  let a_mean := np.mean a_s in
  let b_mean := np.mean b_s in
  if feq0 a_mean then (rng, rnd.setitem lifts i NaN)
  else (rng, rnd.setitem lifts i (fdiv (fsub b_mean a_mean) a_mean)).

Definition bootstrap_lift_ci (w : rnd.World) (a b : Series) (n_boot : Z)
    (alpha : Qc) (seed : option Z) : result (Qc * Qc) :=
  rng <- rnd.default_rng G seed w ;;
  lifts <- rnd.empty w n_boot ;;
  let '(_, lifts) :=
    fold_left (bootstrap_iteration a b) (seq 0 (Z.to_nat n_boot)) (rng, lifts) in
  let lifts := rnd.not_nan lifts in
  low <- np.quantile lifts (alpha / Qc_of_Z 2) ;;
  high <- np.quantile lifts (1 - alpha / Qc_of_Z 2) ;;
  Ok (low, high).

End Bootstrap.

(** Defaults of the signatures. *)
Definition default_seed : option Z := Some 42%Z.
Definition default_winsor : Qc := 0.
Definition default_alpha : Qc := Q2Qc (5 # 100).
Definition default_n_boot : Z := 5000%Z.

(** ** Result Assembler ([ABResult], [analyze_ab], lines 28-45 and 109-148) *)

Record ABResult : Type := {
  group_a_mean : float;
  group_b_mean : float;
  group_a_n : nat;
  group_b_n : nat;
  lift : float;
  welch_t : st.xreal;
  welch_p : st.xreal;
  mw_u : float;
  mw_p : float;
  ci_low : Qc;
  ci_high : Qc;
  alpha : Qc;
  winsor : Qc;
  metric : string;
  group_col : string;
  value_col : string
}.

Section Analysis.

Variable parse : string -> float.
Variable t_sf : R -> R -> R.
Variable mannwhitneyu : Series -> Series -> float * float.
Variable G : rnd.BitGenerator.

(** Lines 118-120. *)
Definition winsorize_groups (winsor : Qc) (a b : Series)
  : result (Series * Series) :=
  if Qcltb 0 winsor then
    a' <- winsorize a winsor ;;
    b' <- winsorize b winsor ;;
    Ok (a', b')
  else Ok (a, b).

Definition analyze_ab (w : rnd.World) (df : pd.DataFrame)
    (group_col value_col : string) (winsor alpha : Qc) (n_boot : Z)
  : result ABResult :=
  '(a, b) <- check_inputs parse df group_col value_col ;;
  '(a, b) <- winsorize_groups winsor a b ;;
  let ga := np.mean a in
  let gb := np.mean b in
  let lift := if negb (feq0 ga) then fdiv (fsub gb ga) ga else NaN in
  '(t, tp) <- welch_t_test t_sf a b ;;
  '(u, up) <- mann_whitney mannwhitneyu a b ;;
  '(ci_low, ci_high) <- bootstrap_lift_ci G w a b n_boot alpha default_seed ;;
  Ok {| group_a_mean := ga;
        group_b_mean := gb;
        group_a_n := length a;
        group_b_n := length b;
        lift := lift;
        welch_t := t;
        welch_p := tp;
        mw_u := u;
        mw_p := up;
        ci_low := ci_low;
        ci_high := ci_high;
        alpha := alpha;
        winsor := winsor;
        metric := value_col;
        group_col := group_col;
        value_col := value_col |}.

End Analysis.

(** ** Concrete inputs *)

Definition Qc_of_ints (l : list Z) : list Qc := map Qc_of_Z l.

(** The fraction [n/d]. *)
Definition frac (n : Z) (d : positive) : Qc := Q2Qc (n # d).

Definition five_values : Series := Qc_of_ints [0; 1; 2; 3; 4]%Z.

(** A parser for plain decimal literals (an optional minus sign, digits, an
    optional fraction part), to run [check_inputs] on concrete frames. *)
Definition digit (c : ascii) : option Z :=
  let n := nat_of_ascii c in
  if (48 <=? n)%nat && (n <=? 57)%nat then Some (Z.of_nat (n - 48)) else None.

Fixpoint parse_digits (s : string) (acc : Z) (den : positive) (in_frac seen : bool)
  : option Q :=
  match s with
  | EmptyString => if seen then Some (acc # den) else None
  | String c s' =>
      if Ascii.eqb c "."%char then
        (if in_frac then None else parse_digits s' acc den true seen)
      else
        match digit c with
        | Some d =>
            parse_digits s' (10 * acc + d)%Z (if in_frac then (10 * den)%positive else den)
                         in_frac true
        | None => None
        end
  end.

Definition parse_decimal (s : string) : float :=
  match s with
  | String "-"%char s' =>
      match parse_digits s' 0 1 false false with
      | Some x => Fin (Q2Qc (- x))
      | None => NaN
      end
  | _ =>
      match parse_digits s 0 1 false false with
      | Some x => Fin (Q2Qc x)
      | None => NaN
      end
  end.

(** A row of a frame with the columns ["group"] and ["revenue"]. *)
Definition mkrow (g v : pd.cell) : string -> pd.cell :=
  fun c => if String.eqb c "group" then g
           else if String.eqb c "revenue" then v
           else pd.NA.

Definition mkframe (l : list (pd.cell * pd.cell)) : pd.DataFrame :=
  {| pd.columns := ["group"; "revenue"]%string;
     pd.rows := map (fun gv => mkrow (fst gv) (snd gv)) l |}.

(** Two groups whose metric is text that is not a number. *)
Definition unparsable_frame : pd.DataFrame :=
  mkframe [(pd.Text "A", pd.Text "abc"); (pd.Text "B", pd.Text "n/a");
           (pd.Text "A", pd.Text "-")].

(** The variant group comes first in the source; the second frame has the
    same rows in reverse order. *)
Definition variant_first_rows : list (pd.cell * pd.cell) :=
  [(pd.Text "treatment", pd.Text "12.5"); (pd.Text "control", pd.Number (Qc_of_Z 10));
   (pd.Text "treatment", pd.Text "14"); (pd.Text "control", pd.Text "11")].

Definition variant_first_frame : pd.DataFrame := mkframe variant_first_rows.

Definition control_first_frame : pd.DataFrame := mkframe (rev variant_first_rows).

(** ** The statistics in the words of the specification *)

(** Mean and unbiased (n - 1 denominator) variance of a sample. *)
Definition sample_mean (xs : list Qc) : Qc := np.sum xs / Qc_of_nat (length xs).

Definition sample_variance (xs : list Qc) : Qc :=
  st.sum_sq_dev (sample_mean xs) xs / Qc_of_Z (Z.of_nat (length xs) - 1).

(** The squared standard error [var_A/n_A + var_B/n_B]. *)
Definition squared_standard_error (a b : list Qc) : Qc :=
  sample_variance a / Qc_of_nat (length a) + sample_variance b / Qc_of_nat (length b).

(** The closed form as the specification writes it, with [mean_B - mean_A]
    on top. *)
Definition spec_welch_t (a b : list Qc) : R :=
  ((Q2R (sample_mean b) - Q2R (sample_mean a))
   / sqrt (Q2R (sample_variance a) / INR (length a)
           + Q2R (sample_variance b) / INR (length b)))%R.

(** The same closed form with [mean_A - mean_B] on top. *)
Definition welch_closed_form (a b : list Qc) : R :=
  ((Q2R (sample_mean a) - Q2R (sample_mean b))
   / sqrt (Q2R (sample_variance a) / INR (length a)
           + Q2R (sample_variance b) / INR (length b)))%R.

Section BootstrapSpec.

Variable G : rnd.BitGenerator.

(** The resamples of the run, one pair per iteration, each iteration
    drawing from A and then from B. *)
Fixpoint resample_pairs (rng : rnd.state G) (a b : list Qc) (n : nat)
  : list (list Qc * list Qc) :=
  match n with
  | O => []
  | S k =>
      let (a_s, rng1) := rnd.choice G rng a (length a) in
      let (b_s, rng2) := rnd.choice G rng1 b (length b) in
      (a_s, b_s) :: resample_pairs rng2 a b k
  end.

(** The entry the loop writes for one pair (lines 97-102). *)
Definition lift_entry (ab : list Qc * list Qc) : float :=
  let a_mean := np.mean (fst ab) in
  let b_mean := np.mean (snd ab) in
  if feq0 a_mean then NaN else fdiv (fsub b_mean a_mean) a_mean.

(** The retained lift values: an iteration whose resample of A has mean 0
    contributes nothing, every other one its lift. *)
Definition retained_lifts (pairs : list (list Qc * list Qc)) : list Qc :=
  flat_map (fun ab =>
              if Qceqb (sample_mean (fst ab)) 0 then []
              else [(sample_mean (snd ab) - sample_mean (fst ab)) / sample_mean (fst ab)])
           pairs.

(** The iterations whose resample of A has mean 0. *)
Definition undefined_lifts (pairs : list (list Qc * list Qc))
  : list (list Qc * list Qc) :=
  filter (fun ab => Qceqb (sample_mean (fst ab)) 0) pairs.

(** The percentile interval of a list of lift values. *)
Definition percentile_interval (lifts : list Qc) (alpha : Qc) : result (Qc * Qc) :=
  low <- np.quantile lifts (alpha / Qc_of_Z 2) ;;
  high <- np.quantile lifts (1 - alpha / Qc_of_Z 2) ;;
  Ok (low, high).

End BootstrapSpec.

(** ** Stand-ins for the library functions, to run the model *)

(** The survival function of the symmetric law of density
    [1 / (2 (1 + |x|)^2)], in the place of Student's. *)
Definition sample_sf (df x : R) : R := (/ (2 * (1 + x)))%R.

(** The U statistic of the first sample, by counting pairs, and no p-value. *)
Definition count_u (a b : Series) : float * float :=
  (Fin (np.sum (flat_map (fun x =>
                   map (fun y => if Qcltb y x then 1
                                 else if Qceqb x y then frac 1 2 else 0) b) a)),
   NaN).

(** A 64-bit linear congruential generator. *)
Definition lcg : rnd.BitGenerator :=
  {| rnd.state := N;
     rnd.seed_state := fun s => s;
     rnd.next_raw := fun s =>
       let s' := ((6364136223846793005 * s + 1442695040888963407) mod 2 ^ 64)%N in
       ((s' / 2 ^ 33)%N, s') |}.

Definition zero_world : rnd.World :=
  {| rnd.os_entropy := 0%N; rnd.uninitialised := fun _ => Fin 0 |}.

Definition nan_world : rnd.World :=
  {| rnd.os_entropy := 7%N; rnd.uninitialised := fun _ => NaN |}.

(** The scenario of the specification. *)
Definition scenario_A : Series := Qc_of_ints [10; 10; 10; 12]%Z.
Definition scenario_B : Series := Qc_of_ints [12; 12; 12; 14]%Z.

(** A control group with a single observation. *)
Definition single_control_frame : pd.DataFrame :=
  mkframe [(pd.Text "A", pd.Text "1"); (pd.Text "B", pd.Text "2");
           (pd.Text "B", pd.Text "3")].

(** ** Further concrete inputs *)

(** A frame in which every row lacks its group or its metric. *)
Definition incomplete_frame : pd.DataFrame :=
  mkframe [(pd.NA, pd.Text "1"); (pd.Text "A", pd.NA); (pd.NA, pd.NA)].

(** Three groups. *)
Definition three_group_frame : pd.DataFrame :=
  mkframe [(pd.Text "A", pd.Text "1"); (pd.Text "B", pd.Text "2");
           (pd.Text "C", pd.Text "3"); (pd.Text "A", pd.Text "4")].

(** One group named by text, the other by a number. *)
Definition mixed_label_frame : pd.DataFrame :=
  mkframe [(pd.Text "A", pd.Text "1"); (pd.Number (Qc_of_Z 1), pd.Text "2")].

(** The opposite of a value of the Welch statistic. *)
Definition xopp (t : st.xreal) : st.xreal :=
  match t with
  | st.XNaN => st.XNaN
  | st.XInf negative => st.XInf (negb negative)
  | st.XFin r => st.XFin (- r)
  end.

(** Two constant samples, with different and with equal means. *)
Definition constant_A : Series := Qc_of_ints [10; 10; 10]%Z.
Definition constant_B : Series := Qc_of_ints [12; 12]%Z.

(** A control group whose metric is 0 in every row. *)
Definition zero_control_frame : pd.DataFrame :=
  mkframe [(pd.Text "A", pd.Text "0"); (pd.Text "B", pd.Text "5");
           (pd.Text "A", pd.Text "0"); (pd.Text "B", pd.Text "7")].

(** * Properties *)

(** ** Facts about the comparisons of [Qc] *)

Lemma Qcleb_le (x y : Qc) : Qcleb x y = true <-> x <= y.
Proof. unfold Qcleb, Qcle. apply Qle_bool_iff. Qed.

Lemma Qcleb_gt (x y : Qc) : Qcleb x y = false <-> y < x.
Proof.
  unfold Qcleb, Qclt. split; intro H.
  - apply Qnot_le_lt. intro C. apply Qle_bool_iff in C. congruence.
  - destruct (Qle_bool x y) eqn:E; [|reflexivity].
    apply Qle_bool_iff in E. exfalso. apply (Qlt_not_le _ _ H E).
Qed.

Lemma Qcltb_lt (x y : Qc) : Qcltb x y = true <-> x < y.
Proof.
  unfold Qcltb. rewrite negb_true_iff. apply (Qcleb_gt y x).
Qed.

Lemma Qcltb_ge (x y : Qc) : Qcltb x y = false <-> y <= x.
Proof.
  unfold Qcltb. rewrite negb_false_iff. apply (Qcleb_le y x).
Qed.

Lemma Qceqb_eq (x y : Qc) : Qceqb x y = true <-> x = y.
Proof.
  unfold Qceqb, Qc_eq_bool. destruct (Qc_eq_dec x y); split; congruence.
Qed.

Lemma Qceqb_neq (x y : Qc) : Qceqb x y = false <-> x <> y.
Proof.
  unfold Qceqb, Qc_eq_bool. destruct (Qc_eq_dec x y); split; congruence.
Qed.

Lemma this_Q2Qc (x : Q) : this (Q2Qc x) = Qred x.
Proof. reflexivity. Qed.

(** Goals of linear arithmetic on [Qc] are sent to [Q]. *)
Ltac qc_to_q :=
  repeat match goal with
         | H : @eq Qc _ _ |- _ => apply (f_equal this) in H
         | |- @eq Qc _ _ => apply Qc_is_canon
         | H : ~ @eq Qc _ _ |- _ =>
             let H' := fresh in
             assert (H' := fun E => H (Qc_is_canon _ _ E)); clear H
         end;
  unfold Qcle, Qclt, Qcdiv, Qcminus, Qcplus, Qcmult, Qcopp, Qcinv, Qc_of_nat, Qc_of_Z in *;
  repeat rewrite this_Q2Qc in *;
  repeat rewrite Qred_correct in *.

Lemma this_Qc_of_Z (z : Z) : (this (Qc_of_Z z) == inject_Z z)%Q.
Proof. unfold Qc_of_Z. rewrite this_Q2Qc. apply Qred_correct. Qed.

Lemma Qfloor_Qc_of_Z (z : Z) : Qfloor (Qc_of_Z z) = z.
Proof. rewrite this_Qc_of_Z. apply Qfloor_Z. Qed.

Lemma Qc_of_Z_inj_le (x y : Z) : (x <= y)%Z <-> Qc_of_Z x <= Qc_of_Z y.
Proof.
  unfold Qcle. rewrite !this_Qc_of_Z, Zle_Qle. reflexivity.
Qed.

Lemma Qc_of_Z_minus (x y : Z) : Qc_of_Z (x - y) = Qc_of_Z x - Qc_of_Z y.
Proof.
  apply Qc_is_canon. unfold Qcminus, Qcplus, Qcopp, Qc_of_Z.
  rewrite !this_Q2Qc, !Qred_correct. unfold Z.sub.
  rewrite inject_Z_plus, inject_Z_opp. reflexivity.
Qed.

(** ** Sorting and order statistics *)

Section SortFacts.

Import np.

Lemma insert_length (x : Qc) (l : list Qc) : length (insert x l) = S (length l).
Proof.
  induction l as [|y l IH]; simpl; [reflexivity|].
  destruct (Qcleb x y); simpl; [reflexivity|now rewrite IH].
Qed.

Lemma sort_length (l : list Qc) : length (sort l) = length l.
Proof.
  induction l as [|x l IH]; simpl; [reflexivity|].
  now rewrite insert_length, IH.
Qed.

Lemma insert_hd (x y : Qc) (l : list Qc) :
  y <= x -> HdRel Qcle y l -> HdRel Qcle y (insert x l).
Proof.
  intros Hyx Hl. destruct l as [|z l]; simpl.
  - constructor. exact Hyx.
  - destruct (Qcleb x z); constructor; [exact Hyx|].
    inversion Hl; assumption.
Qed.

Lemma insert_sorted (x : Qc) (l : list Qc) :
  Sorted Qcle l -> Sorted Qcle (insert x l).
Proof.
  induction l as [|y l IH]; intros Hs; simpl.
  - repeat constructor.
  - destruct (Qcleb x y) eqn:E.
    + constructor; [exact Hs|]. constructor. now apply Qcleb_le.
    + apply Qcleb_gt in E. inversion Hs; subst.
      constructor; [now apply IH|].
      apply insert_hd; [now apply Qclt_le_weak|assumption].
Qed.

Lemma sort_sorted (l : list Qc) : Sorted Qcle (sort l).
Proof.
  induction l as [|x l IH]; simpl; [constructor|now apply insert_sorted].
Qed.

(** Order statistics increase with their rank. *)
Lemma sorted_nth_le (l : list Qc) :
  Sorted Qcle l ->
  forall i j, (i <= j)%nat -> (j < length l)%nat -> nth i l 0 <= nth j l 0.
Proof.
  intros Hs. apply Sorted_StronglySorted in Hs.
  2:{ intros x y z. apply Qcle_trans. }
  induction Hs as [|x l Hs IH Hall]; intros i j Hij Hj; simpl in Hj; [lia|].
  destruct i as [|i], j as [|j]; simpl; try lia.
  - apply Qcle_refl.
  - rewrite Forall_forall in Hall. apply Hall, nth_In. lia.
  - apply IH; lia.
Qed.

Variable f : Qc -> Qc.
Hypothesis f_monotone : forall x y, x <= y -> f x <= f y.

(** A monotone map commutes with insertion into a sorted list, and so with
    sorting. *)
Lemma insert_map (x : Qc) (l : list Qc) :
  Sorted Qcle l -> insert (f x) (map f l) = map f (insert x l).
Proof.
  induction l as [|y l IH]; intros Hs; simpl; [reflexivity|].
  inversion Hs as [|? ? Hs' Hhd]; subst.
  destruct (Qcleb x y) eqn:Exy.
  - apply Qcleb_le in Exy. apply f_monotone, Qcleb_le in Exy.
    now rewrite Exy.
  - apply Qcleb_gt in Exy.
    destruct (Qcleb (f x) (f y)) eqn:Ef.
    + (* f x = f y: the two positions hold the same value *)
      apply Qcleb_le in Ef.
      assert (Heq : f x = f y).
      { apply Qcle_antisym; [exact Ef|]. now apply f_monotone, Qclt_le_weak. }
      simpl. rewrite <- IH by assumption. rewrite Heq. f_equal.
      destruct l as [|z l]; simpl; [reflexivity|].
      inversion Hhd; subst.
      assert (Hz : Qcleb (f y) (f z) = true) by now apply Qcleb_le, f_monotone.
      now rewrite Hz.
    + simpl. now rewrite IH.
Qed.

Lemma sort_map (l : list Qc) : sort (map f l) = map f (sort l).
Proof.
  induction l as [|x l IH]; simpl; [reflexivity|].
  rewrite IH. apply insert_map, sort_sorted.
Qed.

End SortFacts.

(** ** Winsorizer *)

(** Case analysis on a comparison, with its meaning in the context. *)
Ltac case_Qcltb a b :=
  let E := fresh "E" in
  destruct (Qcltb a b) eqn:E;
  [apply Qcltb_lt in E | apply Qcltb_ge in E].

Section WinsorizerFacts.

Import pd.

Lemma clip_between_monotone (lo hi x y : Qc) :
  x <= y -> clip_between lo hi x <= clip_between lo hi y.
Proof.
  intros Hxy. unfold clip_between, clip_above, clip_below.
  case_Qcltb x lo; case_Qcltb y lo;
    repeat match goal with
           | |- context [Qcltb ?a ?b] => case_Qcltb a b
           end;
    unfold Qcle, Qclt in *; lra.
Qed.

Lemma clip_between_inside (lo hi x : Qc) :
  lo <= x -> x <= hi -> clip_between lo hi x = x.
Proof.
  intros Hlo Hhi. unfold clip_between, clip_above, clip_below.
  assert (E1 : Qcltb x lo = false) by now apply Qcltb_ge.
  assert (E2 : Qcltb hi x = false) by now apply Qcltb_ge.
  now rewrite E1, E2.
Qed.

Lemma clip_between_range (lo hi x : Qc) :
  lo <= hi -> lo <= clip_between lo hi x /\ clip_between lo hi x <= hi.
Proof.
  intros H. unfold clip_between, clip_above, clip_below.
  case_Qcltb x lo;
    repeat match goal with
           | |- context [Qcltb ?a ?b] => case_Qcltb a b
           end;
    unfold Qcle, Qclt in *; split; lra.
Qed.

Lemma clip_between_idempotent (lo hi x : Qc) :
  lo <= hi -> clip_between lo hi (clip_between lo hi x) = clip_between lo hi x.
Proof.
  intros H. destruct (clip_between_range x H). now apply clip_between_inside.
Qed.

Lemma Qcmin_le (x y : Qc) : x <= y -> Qcmin x y = x.
Proof. intros H. unfold Qcmin. apply Qcleb_le in H. now rewrite H. Qed.

Lemma Qcmax_le (x y : Qc) : x <= y -> Qcmax x y = y.
Proof. intros H. unfold Qcmax. apply Qcleb_le in H. now rewrite H. Qed.

Lemma valid_percentile_iff (p : Qc) :
  np.valid_percentile p = true <-> 0 <= p /\ p <= 1.
Proof.
  unfold np.valid_percentile. rewrite andb_true_iff, !Qcleb_le. reflexivity.
Qed.

(** What [winsorize_series] computes when it clips. *)
Lemma winsorize_clips (s : Series) (p : Qc) :
  0 < p -> p <= 1 -> s <> [] ->
  winsorize s p =
  Ok (map (clip_between
             (Qcmin (np.linear_quantile s p) (np.linear_quantile s (1 - p)))
             (Qcmax (np.linear_quantile s p) (np.linear_quantile s (1 - p)))) s).
Proof.
  intros Hp0 Hp1 Hs. unfold winsorize, winsorize_series.
  assert (E : Qcleb p 0 = false) by now apply Qcleb_gt.
  rewrite E. unfold quantile.
  assert (V1 : np.valid_percentile p = true).
  { apply valid_percentile_iff. split; [now apply Qclt_le_weak|exact Hp1]. }
  assert (V2 : np.valid_percentile (1 - p) = true).
  { apply valid_percentile_iff. unfold Qcle, Qclt in *. qc_to_q. split; lra. }
  destruct s as [|x s]; [congruence|].
  unfold tbind, value. rewrite V1, V2. reflexivity.
Qed.

Lemma winsorize_empty (p : Qc) : 0 <= p -> p <= 1 -> winsorize [] p = Ok [].
Proof.
  intros Hp0 Hp1. unfold winsorize, winsorize_series.
  destruct (Qcleb p 0); [reflexivity|].
  assert (V1 : np.valid_percentile p = true) by now apply valid_percentile_iff.
  assert (V2 : np.valid_percentile (1 - p) = true).
  { apply valid_percentile_iff. unfold Qcle, Qclt in *. qc_to_q. split; lra. }
  unfold quantile, tbind, value. rewrite V1, V2. reflexivity.
Qed.

(** With a whole virtual index the quantile is an order statistic. *)
Lemma linear_quantile_at_rank (xs : list Qc) (q : Qc) (k : nat) :
  np.virtual_index (length xs) q = Qc_of_nat k ->
  np.linear_quantile xs q = nth k (np.sort xs) 0.
Proof.
  intros Hk. unfold np.linear_quantile. rewrite Hk.
  unfold Qc_of_nat. rewrite Qfloor_Qc_of_Z, Nat2Z.id.
  unfold np.lerp.
  set (a := nth k (np.sort xs) 0). set (b := nth _ (np.sort xs) 0).
  set (z := Qc_of_Z (Z.of_nat k)). ring.
Qed.

End WinsorizerFacts.

Section WinsorizerProperties.

Import pd.

(** C8.  Winsorization with p = 0 is the identity, [winsorize(s, 0) == s]
    for every s, and 0 is the default proportion, with which the analysis
    leaves both samples as they are. *)
Theorem winsorize_zero_is_identity :
  (forall s : Series, winsorize s 0 = Ok s) /\
  default_winsor = 0 /\
  (forall a b, winsorize_groups default_winsor a b = Ok (a, b)).
Proof.
  repeat split.
Qed.

(** C10.  For every p <= 0, negative p included, [winsorize_series]
    returns its argument itself without any call into the library: no
    quantile is computed, no new Series is built, no error is raised, also
    where the p-quantile itself would be rejected. *)
Theorem winsorize_nonpositive_returns_input (s : Series) (p : Qc) :
  p <= 0 ->
  winsorize_series s p = ([], Ok s) /\
  (p < 0 -> value (quantile s p) = Err Percentile_out_of_range).
Proof.
  intros Hp. split.
  - unfold winsorize_series. apply Qcleb_le in Hp. now rewrite Hp.
  - intros Hneg. unfold quantile, value, np.valid_percentile. simpl.
    assert (E : Qcleb 0 p = false) by now apply Qcleb_gt.
    now rewrite E.
Qed.

Lemma winsorize_nonpositive_returns_input_witness :
  frac (-1) 10 <= 0 /\
  winsorize_series five_values (frac (-1) 10) = ([], Ok five_values).
Proof.
  assert (H : frac (-1) 10 <= 0) by (vm_compute; discriminate).
  split; [exact H|].
  exact (proj1 (winsorize_nonpositive_returns_input five_values H)).
Defined.

(** C4, counterexample.  On [0, 1, 2, 3, 4] with p = 0.1 the first pass
    gives [0.4, 1, 2, 3, 3.6] and the second [0.64, 1, 2, 3, 3.36]. *)
Lemma winsorize_twice_differs :
  Qcleb 0 (frac 1 10) && Qcltb (frac 1 10) (frac 1 2) = true /\
  (s1 <- winsorize five_values (frac 1 10) ;; winsorize s1 (frac 1 10))
  <> winsorize five_values (frac 1 10).
Proof.
  split; [reflexivity|]. intros H.
  apply (f_equal (fun r => match r with Ok l => map this l | Err _ => [] end)) in H.
  vm_compute in H. discriminate H.
Qed.

(** C4, amended.  For p in [0, 0.5), when the virtual index p * (n - 1) of
    the p-quantile is a whole number, so that both quantiles are order
    statistics, winsorizing twice equals winsorizing once. *)
Theorem winsorize_idempotent_at_whole_rank (s : Series) (p : Qc) :
  0 <= p -> p < frac 1 2 ->
  (exists k : nat, np.virtual_index (length s) p = Qc_of_nat k) ->
  (s1 <- winsorize s p ;; winsorize s1 p) = winsorize s p.
Proof.
  intros Hp0 Hhalf [k Hk].
  destruct (Qcleb p 0) eqn:Ep.
  { assert (W : winsorize s p = Ok s).
    { unfold winsorize, winsorize_series. now rewrite Ep. }
    rewrite W. exact W. }
  apply Qcleb_gt in Ep.
  assert (Hp1 : p <= 1).
  { unfold frac in Hhalf. revert Hhalf. unfold Qcle, Qclt.
    rewrite this_Q2Qc, Qred_correct. change (this 1) with 1%Q. lra. }
  destruct s as [|x0 s0] eqn:Es.
  { rewrite winsorize_empty by assumption. simpl. now apply winsorize_empty. }
  rewrite <- Es in *. assert (Hne : s <> []) by (rewrite Es; discriminate).
  assert (Hlen : (1 <= length s)%nat) by (rewrite Es; simpl; lia).
  clear Es x0 s0.
  (* the two ranks *)
  assert (H2k : (2 * Z.of_nat k <= Z.of_nat (length s) - 1)%Z).
  { apply (proj2 (Qc_of_Z_inj_le _ _)).
    unfold np.virtual_index, Qc_of_nat in Hk.
    assert (Hn : 0 <= Qc_of_Z (Z.of_nat (length s) - 1)).
    { change 0 with (Qc_of_Z 0). apply (proj1 (Qc_of_Z_inj_le _ _)). lia. }
    set (m := Qc_of_Z (Z.of_nat (length s) - 1)) in *.
    assert (E2 : Qc_of_Z (2 * Z.of_nat k) = Qc_of_Z 2 * Qc_of_Z (Z.of_nat k)).
    { apply Qc_is_canon. unfold Qcmult, Qc_of_Z.
      rewrite !this_Q2Qc, !Qred_correct, inject_Z_mult. reflexivity. }
    rewrite E2, <- Hk. clear E2 Hk.
    unfold frac in Hhalf. revert Hhalf Hn Ep. unfold Qc_of_Z, Qcle, Qclt, Qcmult.
    rewrite !this_Q2Qc, !Qred_correct. change (this 0) with 0%Q.
    intros. change (inject_Z 2) with 2%Q.
    assert (Hprod : (0 <= ((1 # 2) - p) * m)%Q) by (apply Qmult_le_0_compat; lra).
    lra. }
  set (k' := (length s - 1 - k)%nat).
  assert (Hkk' : (k <= k')%nat) by (unfold k'; lia).
  assert (Hk'n : (k' < length s)%nat) by (unfold k'; lia).
  assert (Hk' : np.virtual_index (length s) (1 - p) = Qc_of_nat k').
  { unfold np.virtual_index in *.
    replace ((1 - p) * Qc_of_Z (Z.of_nat (length s) - 1))
      with (Qc_of_Z (Z.of_nat (length s) - 1) - p * Qc_of_Z (Z.of_nat (length s) - 1))
      by ring.
    rewrite Hk. unfold Qc_of_nat. rewrite <- Qc_of_Z_minus. f_equal. unfold k'. lia. }
  set (lo := nth k (np.sort s) 0). set (hi := nth k' (np.sort s) 0).
  assert (Hlohi : lo <= hi).
  { apply sorted_nth_le; [apply sort_sorted|exact Hkk'|now rewrite sort_length]. }
  assert (W1 : winsorize s p = Ok (map (clip_between lo hi) s)).
  { rewrite winsorize_clips by assumption.
    rewrite (linear_quantile_at_rank _ Hk), (linear_quantile_at_rank _ Hk').
    fold lo hi. now rewrite Qcmin_le, Qcmax_le. }
  rewrite W1. simpl.
  set (s1 := map (clip_between lo hi) s).
  assert (Hlen1 : length s1 = length s) by apply length_map.
  assert (Hne1 : s1 <> []).
  { intros E. rewrite E in Hlen1. simpl in Hlen1. lia. }
  assert (Hsort1 : np.sort s1 = map (clip_between lo hi) (np.sort s)).
  { apply sort_map. intros a b. apply clip_between_monotone. }
  assert (Hrank : forall j, (j < length s)%nat ->
            nth j (np.sort s1) 0 = clip_between lo hi (nth j (np.sort s) 0)).
  { intros j Hj. rewrite Hsort1.
    rewrite (nth_indep _ 0 (clip_between lo hi 0)) by now rewrite length_map, sort_length.
    apply map_nth. }
  rewrite winsorize_clips by assumption.
  rewrite <- Hlen1 in Hk, Hk'.
  rewrite (linear_quantile_at_rank _ Hk), (linear_quantile_at_rank _ Hk').
  rewrite !Hrank by lia. fold lo hi.
  rewrite !clip_between_inside; try assumption; try apply Qcle_refl.
  rewrite Qcmin_le, Qcmax_le by assumption.
  f_equal. unfold s1. rewrite map_map. apply map_ext.
  intros a. now apply clip_between_idempotent.
Qed.

Lemma winsorize_idempotent_at_whole_rank_witness :
  (s1 <- winsorize five_values (frac 1 4) ;; winsorize s1 (frac 1 4))
  = winsorize five_values (frac 1 4).
Proof.
  apply winsorize_idempotent_at_whole_rank.
  - vm_compute. discriminate.
  - vm_compute. reflexivity.
  - exists 1%nat. apply Qc_is_canon. vm_compute. reflexivity.
Defined.

End WinsorizerProperties.

(** ** Input Validator *)

Section PermutationFacts.

Variables A B : Type.

Lemma Permutation_filter (f : A -> bool) (l l' : list A) :
  Permutation l l' -> Permutation (filter f l) (filter f l').
Proof.
  induction 1 as [|x l l' _ IH|x y l|l l' l'' _ IH1 _ IH2]; simpl.
  - constructor.
  - destruct (f x); [now constructor|exact IH].
  - destruct (f x), (f y); try apply Permutation_refl. apply perm_swap.
  - exact (Permutation_trans IH1 IH2).
Qed.

Lemma Permutation_flat_map (f : A -> list B) (l l' : list A) :
  Permutation l l' -> Permutation (flat_map f l) (flat_map f l').
Proof.
  induction 1 as [|x l l' _ IH|x y l|l l' l'' _ IH1 _ IH2]; simpl.
  - constructor.
  - now apply Permutation_app_head.
  - rewrite !app_assoc. apply Permutation_app_tail, Permutation_app_comm.
  - exact (Permutation_trans IH1 IH2).
Qed.

End PermutationFacts.

Section ValidatorFacts.

Import pd.

Variable parse : string -> float.

Lemma cell_eqb_eq (x y : cell) : cell_eqb x y = true <-> x = y /\ isna x = false.
Proof.
  destruct x as [|a|a], y as [|b|b]; simpl; split;
    try (intros H; discriminate H); try (intros [H _]; discriminate H);
    try (intros [_ H]; discriminate H).
  - intros H. apply String.eqb_eq in H. now subst.
  - intros [H _]. injection H as ->. apply String.eqb_refl.
  - intros H. apply Qceqb_eq in H. now subst.
  - intros [H _]. injection H as ->. now apply Qceqb_eq.
Qed.

Lemma cell_eqb_refl (x : cell) : isna x = false -> cell_eqb x x = true.
Proof. intros H. now apply cell_eqb_eq. Qed.

(** Membership in the cleaned frame. *)
Lemma in_cleaned (df : DataFrame) (g v : string) (l : cell) (x : Qc) :
  In (l, x) (cleaned parse df g v) <->
  exists r, In r (rows df) /\ r g = l /\ isna l = false /\ isna (r v) = false
            /\ to_numeric parse (r v) = Fin x.
Proof.
  unfold cleaned, dropna_value, to_numeric_column, dropna, select2.
  rewrite in_flat_map. split.
  - intros [[l' y] [Hin Hx]]. apply in_map_iff in Hin.
    destruct Hin as [[g0 v0] [E Hin]]. apply filter_In in Hin.
    destruct Hin as [Hin Hna]. apply in_map_iff in Hin.
    destruct Hin as [r [Er Hr]]. simpl in *.
    injection E as <- <-. injection Er as <- <-.
    apply andb_true_iff in Hna. destruct Hna as [H1 H2].
    apply negb_true_iff in H1, H2.
    destruct (to_numeric parse (r v)) eqn:En; simpl in Hx; [contradiction|].
    destruct Hx as [Hx|[]]. injection Hx as <- <-.
    exists r. repeat split; assumption.
  - intros [r [Hr [<- [H1 [H2 En]]]]].
    exists (r g, to_numeric parse (r v)). split.
    + apply in_map_iff. exists (r g, r v). split; [reflexivity|].
      apply filter_In. split.
      * apply in_map_iff. exists r. now split.
      * simpl. now rewrite H1, H2.
    + simpl. rewrite En. now left.
Qed.

Lemma cleaned_label_not_na (df : DataFrame) (g v : string) (l : cell) :
  In l (map fst (cleaned parse df g v)) -> isna l = false.
Proof.
  intros H. apply in_map_iff in H. destruct H as [[l' x] [<- H]].
  apply in_cleaned in H. destruct H as [r [_ [_ [H _]]]]. exact H.
Qed.

(** Reordering the rows reorders the cleaned frame. *)
Lemma cleaned_permutation (df df' : DataFrame) (g v : string) :
  Permutation (rows df) (rows df') ->
  Permutation (cleaned parse df g v) (cleaned parse df' g v).
Proof.
  intros H. unfold cleaned, dropna_value, to_numeric_column, dropna, select2.
  apply Permutation_flat_map, Permutation_map, Permutation_filter, Permutation_map, H.
Qed.

Lemma unique_incl (l : list cell) (x : cell) : In x (unique l) -> In x l.
Proof.
  revert x. induction l as [|y l IH]; intros x; simpl; [tauto|].
  intros [H|H]; [now left|]. right. apply filter_In in H. now apply IH.
Qed.

Lemma in_unique (l : list cell) (x : cell) :
  isna x = false -> In x l -> In x (unique l).
Proof.
  intros Hx. induction l as [|y l IH]; simpl; [tauto|].
  intros [->|H]; [now left|].
  destruct (cell_eqb y x) eqn:E.
  - apply cell_eqb_eq in E. left. apply E.
  - right. apply filter_In. split; [now apply IH|now rewrite E].
Qed.

Lemma NoDup_unique (l : list cell) :
  (forall x, In x l -> isna x = false) -> NoDup (unique l).
Proof.
  induction l as [|y l IH]; intros Hna; simpl; [constructor|].
  constructor.
  - intros H. apply filter_In in H. destruct H as [_ H].
    rewrite cell_eqb_refl in H; [discriminate H|]. apply Hna. now left.
  - apply NoDup_filter, IH. intros x Hx. apply Hna. now right.
Qed.

(** A duplicate-free list with exactly two members lists them in one of the
    two orders. *)
Lemma two_members (u : list cell) (la lb : cell) :
  NoDup u -> la <> lb -> (forall x, In x u <-> x = la \/ x = lb) ->
  u = [la; lb] \/ u = [lb; la].
Proof.
  intros Hnd Hne Hmem.
  destruct u as [|x [|y [|z u]]].
  - exfalso. apply (Hmem la). now left.
  - exfalso. assert (Ha : In la [x]) by (apply Hmem; now left).
    assert (Hb : In lb [x]) by (apply Hmem; now right).
    simpl in Ha, Hb. destruct Ha as [Ha|[]], Hb as [Hb|[]]. congruence.
  - assert (Hx : x = la \/ x = lb) by (apply Hmem; now left).
    assert (Hy : y = la \/ y = lb) by (apply Hmem; right; now left).
    inversion Hnd as [|? ? Hnx _]; subst. simpl in Hnx.
    destruct Hx as [->| ->], Hy as [->| ->]; try tauto.
  - exfalso.
    assert (Hx : x = la \/ x = lb) by (apply Hmem; now left).
    assert (Hy : y = la \/ y = lb) by (apply Hmem; right; now left).
    assert (Hz : z = la \/ z = lb) by (apply Hmem; right; right; now left).
    inversion Hnd as [|? ? Hnx Hnd']; subst.
    inversion Hnd' as [|? ? Hny _]; subst. simpl in Hnx, Hny.
    destruct Hx as [->| ->], Hy as [->| ->], Hz as [->| ->]; tauto.
Qed.

(** [<] on labels is asymmetric and irreflexive. *)
Lemma lt_asymmetric (x y : cell) :
  py.lt x y = Ok true -> py.lt y x = Ok false /\ x <> y.
Proof.
  destruct x as [|a|a], y as [|b|b]; simpl; try discriminate.
  - intros H. injection H as H. unfold String.ltb in *.
    rewrite String.compare_antisym.
    destruct (String.compare a b) eqn:E; try discriminate H.
    split; [reflexivity|]. intros Heq. injection Heq as ->.
    assert (Hanti := String.compare_antisym b b).
    rewrite E in Hanti. discriminate Hanti.
  - intros H. injection H as H. apply Qcltb_lt in H. split.
    + f_equal. apply Qcltb_ge. now apply Qclt_le_weak.
    + intros Heq. injection Heq as ->. exact (Qclt_not_eq _ _ H eq_refl).
Qed.

Lemma sorted_two (la lb : cell) (u : list cell) :
  py.lt la lb = Ok true -> u = [la; lb] \/ u = [lb; la] ->
  py.sorted u = Ok [la; lb].
Proof.
  intros Hlt Hu. destruct (lt_asymmetric _ _ Hlt) as [Hgt _].
  destruct Hu as [-> | ->]; simpl.
  - now rewrite Hgt.
  - now rewrite Hlt.
Qed.

(** What [check_inputs] returns on a frame whose cleaned rows carry exactly
    the labels [la < lb]. *)
Lemma check_inputs_two_labels (df : DataFrame) (g v : string) (la lb : cell) :
  has_column df g = true -> has_column df v = true -> g <> v ->
  (forall l, In l (map fst (cleaned parse df g v)) <-> l = la \/ l = lb) ->
  py.lt la lb = Ok true ->
  check_inputs parse df g v
  = Ok (loc (cleaned parse df g v) la, loc (cleaned parse df g v) lb).
Proof.
  intros Hg Hv Hgv Hmem Hlt.
  destruct (lt_asymmetric _ _ Hlt) as [_ Hne].
  unfold check_inputs. rewrite Hg, Hv. simpl.
  fold (cleaned parse df g v).
  assert (Hin : In la (map fst (cleaned parse df g v))) by (apply Hmem; now left).
  destruct (dropna (select2 df g v)) as [|r0 rs] eqn:Ed.
  { exfalso. unfold cleaned in Hin. rewrite Ed in Hin. exact Hin. }
  apply String.eqb_neq in Hgv. rewrite Hgv.
  unfold cleaned in *. rewrite Ed in *.
  set (c := dropna_value (to_numeric_column parse (r0 :: rs))) in *.
  assert (Hna : forall x, In x (map fst c) -> isna x = false).
  { intros x Hx. apply (@cleaned_label_not_na df g v). unfold cleaned.
    now rewrite Ed. }
  assert (Hu : unique (map fst c) = [la; lb] \/ unique (map fst c) = [lb; la]).
  { apply two_members; [now apply NoDup_unique|exact Hne|].
    intros x. rewrite <- Hmem. split.
    - apply unique_incl.
    - intros Hx. apply in_unique; [now apply Hna|exact Hx]. }
  assert (Hn : nunique (map fst c) = 2%nat).
  { unfold nunique. now destruct Hu as [-> | ->]. }
  rewrite Hn. simpl. now rewrite (sorted_two Hlt Hu).
Qed.

Lemma coerced_all_nan (fr : list (cell * cell)) :
  (forall gv, In gv fr -> to_numeric parse (snd gv) = NaN) ->
  dropna_value (to_numeric_column parse fr) = [].
Proof.
  induction fr as [|gv l IH]; intros Hall; [reflexivity|].
  unfold dropna_value, to_numeric_column in *. simpl.
  rewrite (Hall gv) by now left. simpl. apply IH.
  intros gv' H. apply Hall. now right.
Qed.

(** What [check_inputs] does when the coercion leaves no row. *)
Lemma check_inputs_all_unparsable (df : DataFrame) (g v : string) :
  has_column df g = true -> has_column df v = true -> g <> v ->
  dropna (select2 df g v) <> [] ->
  (forall gv, In gv (dropna (select2 df g v)) -> to_numeric parse (snd gv) = NaN) ->
  cleaned parse df g v = [] /\
  check_inputs parse df g v = Err (Expected_exactly_2_groups 0).
Proof.
  intros Hg Hv Hgv Hne Hall.
  assert (Hc : cleaned parse df g v = []).
  { unfold cleaned. now apply coerced_all_nan. }
  split; [exact Hc|].
  unfold check_inputs. rewrite Hg, Hv. cbn [negb orb].
  destruct (dropna (select2 df g v)) as [|r0 rs] eqn:Ed; [congruence|].
  apply String.eqb_neq in Hgv. rewrite Hgv.
  unfold cleaned in Hc. rewrite Ed in Hc. rewrite Hc. reflexivity.
Qed.

End ValidatorFacts.

Section ValidatorProperties.

Import pd.

(** C2, the code at a failing input.  On a frame with two groups whose
    metric column holds only text that is not a number, rows remain after
    the first [dropna], the coercion empties the frame, and [check_inputs]
    raises the group-count error with 0 groups found, not the no-data
    error. *)
Theorem unparsable_metric_reported_as_zero_groups :
  dropna (select2 unparsable_frame "group" "revenue") <> [] /\
  cleaned parse_decimal unparsable_frame "group" "revenue" = [] /\
  check_inputs parse_decimal unparsable_frame "group" "revenue"
  = Err (Expected_exactly_2_groups 0) /\
  check_inputs parse_decimal unparsable_frame "group" "revenue"
  <> Err No_data_after_dropping_NA.
Proof.
  assert (Hne : dropna (select2 unparsable_frame "group" "revenue") <> [])
    by (vm_compute; discriminate).
  destruct (@check_inputs_all_unparsable parse_decimal unparsable_frame
              "group" "revenue") as [Hc Hr].
  - reflexivity.
  - reflexivity.
  - discriminate.
  - exact Hne.
  - intros gv Hgv. vm_compute in Hgv.
    repeat (destruct Hgv as [<-|Hgv]; [reflexivity|]). contradiction.
  - repeat split; try assumption. rewrite Hr. discriminate.
Qed.

(** C9.  When the cleaned rows carry exactly two labels [la < lb] (both
    text, compared lexicographically, or both numbers, compared
    numerically), [check_inputs] returns the values of the rows labelled
    [la] as sample A and those labelled [lb] as sample B; for the same rows
    in any other order it makes the same assignment, each sample holding
    the same values. *)
Theorem smaller_label_is_group_A
    (parse : string -> float) (df df' : DataFrame) (g v : string) (la lb : cell) :
  has_column df g = true -> has_column df v = true -> g <> v ->
  (forall l, In l (map fst (cleaned parse df g v)) <-> l = la \/ l = lb) ->
  py.lt la lb = Ok true ->
  columns df' = columns df -> Permutation (rows df) (rows df') ->
  check_inputs parse df g v
  = Ok (loc (cleaned parse df g v) la, loc (cleaned parse df g v) lb) /\
  check_inputs parse df' g v
  = Ok (loc (cleaned parse df' g v) la, loc (cleaned parse df' g v) lb) /\
  Permutation (loc (cleaned parse df g v) la) (loc (cleaned parse df' g v) la) /\
  Permutation (loc (cleaned parse df g v) lb) (loc (cleaned parse df' g v) lb).
Proof.
  intros Hg Hv Hgv Hmem Hlt Hcols Hperm.
  assert (Hc := @cleaned_permutation parse df df' g v Hperm).
  split; [now apply check_inputs_two_labels|]. split.
  - apply check_inputs_two_labels; try assumption.
    + unfold has_column. now rewrite Hcols.
    + unfold has_column. now rewrite Hcols.
    + intros l. rewrite <- Hmem. split; apply Permutation_in.
      * apply Permutation_map. now apply Permutation_sym.
      * now apply Permutation_map.
  - split; unfold loc; now apply Permutation_map, Permutation_filter.
Qed.

Lemma smaller_label_is_group_A_witness :
  check_inputs parse_decimal variant_first_frame "group" "revenue"
  = Ok (loc (cleaned parse_decimal variant_first_frame "group" "revenue") (Text "control"),
        loc (cleaned parse_decimal variant_first_frame "group" "revenue") (Text "treatment")) /\
  check_inputs parse_decimal control_first_frame "group" "revenue"
  = Ok (loc (cleaned parse_decimal control_first_frame "group" "revenue") (Text "control"),
        loc (cleaned parse_decimal control_first_frame "group" "revenue") (Text "treatment")).
Proof.
  destruct (@smaller_label_is_group_A parse_decimal variant_first_frame
              control_first_frame "group" "revenue" (Text "control") (Text "treatment"))
    as [H1 [H2 _]].
  - reflexivity.
  - reflexivity.
  - discriminate.
  - intros l. vm_compute. split.
    + intros [<-|[<-|[<-|[<-|[]]]]]; auto.
    + intros [->| ->]; auto.
  - reflexivity.
  - reflexivity.
  - unfold control_first_frame, variant_first_frame, mkframe. cbn [rows].
    apply Permutation_map, Permutation_rev.
  - split; assumption.
Defined.

End ValidatorProperties.

(** ** Hypothesis Test Engine *)

Section WelchFacts.

Import st.

Lemma Q2R_Q2Qc (x : Q) : Q2R (Q2Qc x) = Q2R x.
Proof. rewrite this_Q2Qc. apply Qeq_eqR, Qred_correct. Qed.

Lemma Q2R_zero : Q2R (0%Qc) = 0%R.
Proof. rewrite Q2R_Q2Qc. unfold Q2R. simpl. lra. Qed.

Lemma Q2R_Qcminus (x y : Qc) : Q2R (x - y)%Qc = (Q2R x - Q2R y)%R.
Proof.
  unfold Qcminus, Qcplus, Qcopp.
  rewrite Q2R_Q2Qc, Q2R_plus, Q2R_Q2Qc, Q2R_opp. reflexivity.
Qed.

Lemma Q2R_Qcplus (x y : Qc) : Q2R (x + y)%Qc = (Q2R x + Q2R y)%R.
Proof. unfold Qcplus. rewrite Q2R_Q2Qc, Q2R_plus. reflexivity. Qed.

Lemma Q2R_Qcdiv (x y : Qc) : y <> 0 -> Q2R (x / y)%Qc = (Q2R x / Q2R y)%R.
Proof.
  intros Hy. unfold Qcdiv, Qcmult, Qcinv.
  rewrite Q2R_Q2Qc, Q2R_mult, Q2R_Q2Qc, Q2R_inv; [reflexivity|].
  intros E. apply Hy. now apply Qc_is_canon.
Qed.

Lemma Q2R_Qc_of_nat (n : nat) : Q2R (Qc_of_nat n) = INR n.
Proof.
  unfold Qc_of_nat, Qc_of_Z. rewrite Q2R_Q2Qc. unfold Q2R, inject_Z. simpl.
  rewrite INR_IZR_INZ. lra.
Qed.

Lemma Qc_of_Z_eq0 (z : Z) : Qc_of_Z z = 0 <-> z = 0%Z.
Proof.
  split.
  - intros H. apply (f_equal this) in H. unfold Qc_of_Z in H.
    rewrite this_Q2Qc in H. change (this 0) with 0%Q in H.
    assert (E : (inject_Z z == 0)%Q) by (rewrite <- H; symmetry; apply Qred_correct).
    unfold Qeq, inject_Z in E. simpl in E. lia.
  - intros ->. reflexivity.
Qed.

Lemma Qc_of_Z_pos (z : Z) : (0 < z)%Z -> 0 < Qc_of_Z z.
Proof.
  intros H. unfold Qclt. rewrite this_Qc_of_Z. change (this 0) with (inject_Z 0).
  rewrite <- Zlt_Qlt. exact H.
Qed.

Lemma Qceqb_Qc_of_Z (z : Z) : z <> 0%Z -> Qceqb (Qc_of_Z z) 0 = false.
Proof. intros H. apply Qceqb_neq. now rewrite Qc_of_Z_eq0. Qed.

Lemma mean_nonempty (xs : list Qc) : xs <> [] -> np.mean xs = Fin (sample_mean xs).
Proof. destruct xs; [congruence|reflexivity]. Qed.

Lemma var_ddof1_defined (xs : list Qc) :
  (2 <= length xs)%nat -> var_ddof1 xs = Fin (sample_variance xs).
Proof.
  intros Hn. unfold var_ddof1. rewrite mean_nonempty.
  2:{ intros E. rewrite E in Hn. simpl in Hn. lia. }
  unfold fdiv. rewrite Qceqb_Qc_of_Z by lia. reflexivity.
Qed.

Lemma var_over_n_defined (xs : list Qc) :
  (2 <= length xs)%nat ->
  var_over_n xs = Fin (sample_variance xs / Qc_of_nat (length xs)).
Proof.
  intros Hn. unfold var_over_n. rewrite var_ddof1_defined by exact Hn.
  unfold fdiv, Qc_of_nat. rewrite Qceqb_Qc_of_Z by lia. reflexivity.
Qed.

(** With fewer than two observations the variance is 0/0. *)
Lemma var_over_n_undefined (xs : list Qc) :
  (length xs < 2)%nat -> var_over_n xs = NaN.
Proof.
  intros Hn. destruct xs as [|x [|y xs]]; simpl in Hn; try lia; reflexivity.
Qed.

Lemma sum_nonneg (l : list Qc) : (forall x, In x l -> 0 <= x) -> 0 <= np.sum l.
Proof.
  induction l as [|x l IH]; intros H; simpl.
  - apply Qcle_refl.
  - assert (Hx : 0 <= x) by (apply H; now left).
    assert (Hl : 0 <= np.sum l) by (apply IH; intros y Hy; apply H; now right).
    revert Hx Hl. unfold Qcle, Qcplus. rewrite !this_Q2Qc, !Qred_correct. lra.
Qed.

Lemma Qcdiv_nonneg (x y : Qc) : 0 <= x -> 0 < y -> 0 <= x / y.
Proof.
  unfold Qcle, Qclt, Qcdiv, Qcmult, Qcinv.
  rewrite !this_Q2Qc, !Qred_correct.
  intros Hx Hy. apply Qmult_le_0_compat; [exact Hx|].
  apply Qinv_le_0_compat. lra.
Qed.

Lemma sample_variance_nonneg (xs : list Qc) :
  (2 <= length xs)%nat -> 0 <= sample_variance xs.
Proof.
  intros Hn. unfold sample_variance. apply Qcdiv_nonneg.
  - unfold sum_sq_dev. apply sum_nonneg. intros y Hy.
    apply in_map_iff in Hy. destruct Hy as [x [<- _]].
    set (d := x - sample_mean xs).
    unfold Qcle, Qcmult. rewrite !this_Q2Qc, !Qred_correct.
    unfold Qle, Qmult. simpl. nia.
  - apply Qc_of_Z_pos. lia.
Qed.

Lemma squared_standard_error_nonneg (a b : list Qc) :
  (2 <= length a)%nat -> (2 <= length b)%nat -> 0 <= squared_standard_error a b.
Proof.
  intros Ha Hb.
  assert (H1 : 0 <= sample_variance a / Qc_of_nat (length a)).
  { apply Qcdiv_nonneg; [now apply sample_variance_nonneg|apply Qc_of_Z_pos; lia]. }
  assert (H2 : 0 <= sample_variance b / Qc_of_nat (length b)).
  { apply Qcdiv_nonneg; [now apply sample_variance_nonneg|apply Qc_of_Z_pos; lia]. }
  revert H1 H2. unfold squared_standard_error.
  generalize (sample_variance a / Qc_of_nat (length a)).
  generalize (sample_variance b / Qc_of_nat (length b)).
  intros u v. unfold Qcle, Qcplus. rewrite !this_Q2Qc, !Qred_correct. lra.
Qed.

(** The statistic of the library call on two samples of two or more
    observations with a non-zero standard error. *)
Lemma welch_statistic_defined (a b : list Qc) :
  (2 <= length a)%nat -> (2 <= length b)%nat ->
  squared_standard_error a b <> 0 ->
  welch_statistic a b = XFin (welch_closed_form a b).
Proof.
  intros Ha Hb Hse.
  assert (Hane : a <> []) by (intros E; rewrite E in Ha; simpl in Ha; lia).
  assert (Hbne : b <> []) by (intros E; rewrite E in Hb; simpl in Hb; lia).
  unfold welch_statistic, standard_error_sq.
  rewrite !mean_nonempty, !var_over_n_defined by assumption.
  unfold fsub, fplus, divide_by_sqrt.
  fold (squared_standard_error a b).
  apply Qceqb_neq in Hse. rewrite Hse. f_equal.
  unfold welch_closed_form, squared_standard_error.
  rewrite Q2R_Qcminus, Q2R_Qcplus, !Q2R_Qcdiv, !Q2R_Qc_of_nat.
  - reflexivity.
  - unfold Qc_of_nat. rewrite Qc_of_Z_eq0. lia.
  - unfold Qc_of_nat. rewrite Qc_of_Z_eq0. lia.
Qed.

(** The radicand of the closed form is the squared standard error. *)
Lemma closed_form_radicand (a b : list Qc) :
  (2 <= length a)%nat -> (2 <= length b)%nat ->
  (Q2R (sample_variance a) / INR (length a)
   + Q2R (sample_variance b) / INR (length b))%R
  = Q2R (squared_standard_error a b).
Proof.
  intros Ha Hb. unfold squared_standard_error.
  rewrite Q2R_Qcplus, !Q2R_Qcdiv, !Q2R_Qc_of_nat.
  - reflexivity.
  - unfold Qc_of_nat. rewrite Qc_of_Z_eq0. lia.
  - unfold Qc_of_nat. rewrite Qc_of_Z_eq0. lia.
Qed.

Lemma standard_error_positive (a b : list Qc) :
  (2 <= length a)%nat -> (2 <= length b)%nat ->
  squared_standard_error a b <> 0 ->
  (0 < sqrt (Q2R (sample_variance a) / INR (length a)
             + Q2R (sample_variance b) / INR (length b)))%R.
Proof.
  intros Ha Hb Hse. rewrite closed_form_radicand by assumption.
  apply sqrt_lt_R0.
  assert (Hnn := @squared_standard_error_nonneg a b Ha Hb).
  destruct (Qcle_lt_or_eq _ _ Hnn) as [Hlt|Heq]; [|congruence].
  apply Qlt_Rlt in Hlt. now rewrite Q2R_zero in Hlt.
Qed.

(** The sign of the closed form is the sign of [mean_A - mean_B]. *)
Lemma welch_closed_form_sign (a b : list Qc) :
  (2 <= length a)%nat -> (2 <= length b)%nat ->
  squared_standard_error a b <> 0 ->
  ((0 < welch_closed_form a b)%R <-> sample_mean b < sample_mean a) /\
  ((welch_closed_form a b < 0)%R <-> sample_mean a < sample_mean b) /\
  (welch_closed_form a b = 0%R <-> sample_mean a = sample_mean b).
Proof.
  intros Ha Hb Hse.
  assert (Hs := @standard_error_positive a b Ha Hb Hse).
  unfold welch_closed_form.
  set (s := sqrt _) in *.
  assert (Hi : (0 < / s)%R) by now apply Rinv_0_lt_compat.
  unfold Rdiv. set (i := (/ s)%R) in *.
  set (ma := sample_mean a). set (mb := sample_mean b).
  repeat split.
  - intros H. apply Rlt_Qlt. nra.
  - intros H. apply Qlt_Rlt in H. nra.
  - intros H. apply Rlt_Qlt. nra.
  - intros H. apply Qlt_Rlt in H. nra.
  - intros H. apply Qc_is_canon, eqR_Qeq. nra.
  - intros H. rewrite H. lra.
Qed.

End WelchFacts.

Section HypothesisTestFacts.

Import st.

Variable t_sf : R -> R -> R.

(** The result of [welch_t_test] where the statistic is finite. *)
Lemma welch_t_test_defined (a b : Series) :
  (2 <= length a)%nat -> (2 <= length b)%nat ->
  squared_standard_error a b <> 0 ->
  welch_t_test t_sf a b
  = Ok (XFin (welch_closed_form a b),
        XFin (2 * t_sf (Q2R (welch_df a b)) (Rabs (welch_closed_form a b)))).
Proof.
  intros Ha Hb Hse. unfold welch_t_test, ttest_ind_welch.
  rewrite welch_statistic_defined by assumption. reflexivity.
Qed.

(** The result of [welch_t_test] where a sample is too small. *)
Lemma welch_t_test_degenerate (a b : Series) :
  (length a < 2 \/ length b < 2)%nat ->
  welch_t_test t_sf a b = Ok (XNaN, XNaN).
Proof.
  intros H. unfold welch_t_test, ttest_ind_welch.
  assert (E : welch_statistic a b = XNaN).
  { unfold welch_statistic, standard_error_sq.
    destruct H as [H|H]; rewrite (var_over_n_undefined _ H).
    - simpl. now destruct (fsub (np.mean a) (np.mean b)).
    - destruct (var_over_n a); simpl;
        now destruct (fsub (np.mean a) (np.mean b)). }
  rewrite E. reflexivity.
Qed.

Lemma spec_welch_t_opposite (a b : list Qc) :
  spec_welch_t a b = (- welch_closed_form a b)%R.
Proof. unfold spec_welch_t, welch_closed_form, Rdiv. ring. Qed.

End HypothesisTestFacts.

Lemma sample_sf_range (df x : R) : (0 <= x)%R -> (0 <= sample_sf df x <= 1 / 2)%R.
Proof.
  intros Hx. unfold sample_sf. split.
  - left. apply Rinv_0_lt_compat. lra.
  - replace (1 / 2)%R with (/ 2)%R by lra.
    apply Rinv_le_contravar; lra.
Qed.

Lemma winsorize_length (s s' : Series) (p : Qc) :
  winsorize s p = Ok s' -> length s' = length s.
Proof.
  unfold winsorize, winsorize_series.
  destruct (Qcleb p 0); [intros H; injection H as <-; reflexivity|].
  unfold pd.quantile, pd.tbind, pd.value, pd.clip.
  destruct (negb (np.valid_percentile p)); [discriminate|].
  destruct (negb (np.valid_percentile (1 - p))).
  { destruct s; simpl; discriminate. }
  destruct s as [|x s]; cbn [snd]; intros H; injection H as <-;
    [reflexivity|cbn [length]; f_equal; apply length_map].
Qed.

Lemma winsorize_groups_length (winsor : Qc) (a b a' b' : Series) :
  winsorize_groups winsor a b = Ok (a', b') ->
  length a' = length a /\ length b' = length b.
Proof.
  unfold winsorize_groups. destruct (Qcltb 0 winsor).
  - destruct (winsorize a winsor) as [a1|] eqn:Ea; [|discriminate].
    destruct (winsorize b winsor) as [b1|] eqn:Eb; [|discriminate].
    simpl. intros H. injection H as <- <-.
    split; eapply winsorize_length; eassumption.
  - intros H. injection H as <- <-. split; reflexivity.
Qed.

Section HypothesisTestProperties.

Import st.

(** C1, counterexample.  On the scenario A = [10, 10, 10, 12],
    B = [12, 12, 12, 14] the mean of B is the larger and the closed form of
    the specification is positive, while the statistic the engine returns is
    negative. *)
Lemma welch_t_sign_against_claim :
  exists t p,
    welch_t_test sample_sf scenario_A scenario_B = Ok (XFin t, p) /\
    (t < 0)%R /\
    (0 < spec_welch_t scenario_A scenario_B)%R /\
    sample_mean scenario_A < sample_mean scenario_B.
Proof.
  assert (Ha : (2 <= length scenario_A)%nat) by (simpl; lia).
  assert (Hb : (2 <= length scenario_B)%nat) by (simpl; lia).
  assert (Hse : squared_standard_error scenario_A scenario_B <> 0).
  { intros E. apply (f_equal this) in E. vm_compute in E. discriminate E. }
  assert (Hm : sample_mean scenario_A < sample_mean scenario_B)
    by (vm_compute; reflexivity).
  destruct (welch_closed_form_sign Ha Hb Hse) as [_ [Hneg _]].
  apply Hneg in Hm as Ht.
  eexists. eexists. split; [now apply welch_t_test_defined|].
  repeat split; try assumption.
  rewrite spec_welch_t_opposite. lra.
Qed.

(** C1, amended.  For samples A and B of at least 2 observations each and
    a non-zero standard error, the Welch statistic returned is
    (mean_A - mean_B) / sqrt(var_A/n_A + var_B/n_B) with unbiased
    variances, the opposite of the form with mean_B - mean_A; its sign is
    the sign of mean_A - mean_B; and the two-sided p-value lies in
    [0, 1], for a survival function with values in [0, 1/2] on
    non-negative arguments. *)
Theorem welch_t_is_closed_form_A_minus_B (t_sf : R -> R -> R) (a b : Series) :
  (forall df x, (0 <= x)%R -> (0 <= t_sf df x <= 1 / 2)%R) ->
  (2 <= length a)%nat -> (2 <= length b)%nat ->
  squared_standard_error a b <> 0 ->
  exists p,
    welch_t_test t_sf a b = Ok (XFin (welch_closed_form a b), XFin p) /\
    welch_closed_form a b = (- spec_welch_t a b)%R /\
    ((0 < welch_closed_form a b)%R <-> sample_mean b < sample_mean a) /\
    ((welch_closed_form a b < 0)%R <-> sample_mean a < sample_mean b) /\
    (welch_closed_form a b = 0%R <-> sample_mean a = sample_mean b) /\
    (0 <= p <= 1)%R.
Proof.
  intros Hsf Ha Hb Hse.
  destruct (welch_closed_form_sign Ha Hb Hse) as [Hpos [Hneg Hzero]].
  eexists. split; [now apply welch_t_test_defined|].
  repeat split; try (apply Hpos); try (apply Hneg); try (apply Hzero).
  - rewrite spec_welch_t_opposite. lra.
  - destruct (Hsf (Q2R (welch_df a b)) (Rabs (welch_closed_form a b))
                (Rabs_pos _)) as [H0 _]. lra.
  - destruct (Hsf (Q2R (welch_df a b)) (Rabs (welch_closed_form a b))
                (Rabs_pos _)) as [_ H1]. lra.
Qed.

Lemma welch_t_is_closed_form_A_minus_B_witness :
  exists p,
    welch_t_test sample_sf scenario_A scenario_B
    = Ok (XFin (welch_closed_form scenario_A scenario_B), XFin p) /\
    (0 <= p <= 1)%R.
Proof.
  destruct (@welch_t_is_closed_form_A_minus_B sample_sf scenario_A scenario_B)
    as [p [H1 [_ [_ [_ [_ H2]]]]]].
  - exact sample_sf_range.
  - simpl. lia.
  - simpl. lia.
  - intros E. apply (f_equal this) in E. vm_compute in E. discriminate E.
  - exists p. split; assumption.
Defined.

(** C3, counterexample.  A validated input whose control group has a
    single observation is analysed to the end: a result record is produced,
    with NaN for the Welch statistic and its p-value. *)
Lemma single_observation_group_is_analysed :
  exists r,
    analyze_ab parse_decimal sample_sf count_u lcg zero_world
               single_control_frame "group" "revenue" 0 default_alpha 3
    = Ok r /\
    group_a_n r = 1%nat /\ welch_t r = XNaN /\ welch_p r = XNaN.
Proof.
  eexists. split; [vm_compute; reflexivity|]. repeat split.
Qed.

(** C3, amended.  When a sample has fewer than 2 observations the
    Hypothesis Test Engine raises nothing: [welch_t_test] returns NaN for
    the statistic and for the p-value, [mann_whitney] returns what the
    library returns, and on a validated input [analyze_ab] fails only where
    the Winsorizer or the Bootstrap Estimator fails, and otherwise produces
    the result record with these NaNs. *)
Theorem degenerate_sample_yields_nan
    (t_sf : R -> R -> R) (mannwhitneyu : Series -> Series -> float * float)
    (a b : Series) :
  (length a < 2 \/ length b < 2)%nat ->
  welch_t_test t_sf a b = Ok (XNaN, XNaN) /\
  mann_whitney mannwhitneyu a b = Ok (mannwhitneyu a b) /\
  forall parse G w df g v winsor alpha n_boot,
    check_inputs parse df g v = Ok (a, b) ->
    analyze_ab parse t_sf mannwhitneyu G w df g v winsor alpha n_boot
    = ('(a', b') <- winsorize_groups winsor a b ;;
       '(lo, hi) <- bootstrap_lift_ci G w a' b' n_boot alpha default_seed ;;
       Ok {| group_a_mean := np.mean a';
             group_b_mean := np.mean b';
             group_a_n := length a';
             group_b_n := length b';
             lift := if negb (feq0 (np.mean a'))
                     then fdiv (fsub (np.mean b') (np.mean a')) (np.mean a')
                     else NaN;
             welch_t := XNaN;
             welch_p := XNaN;
             mw_u := fst (mannwhitneyu a' b');
             mw_p := snd (mannwhitneyu a' b');
             ci_low := lo;
             ci_high := hi;
             alpha := alpha;
             winsor := winsor;
             metric := v;
             group_col := g;
             value_col := v |}).
Proof.
  intros Hsmall. split; [now apply welch_t_test_degenerate|]. split.
  { unfold mann_whitney. now destruct (mannwhitneyu a b). }
  intros parse G w df g v winsor alpha n_boot Hcheck.
  unfold analyze_ab. rewrite Hcheck. cbn [bind].
  destruct (winsorize_groups winsor a b) as [[a' b']|e] eqn:Ew; [|reflexivity].
  cbn [bind]. destruct (winsorize_groups_length _ _ _ Ew) as [La Lb].
  rewrite welch_t_test_degenerate by (rewrite La, Lb; exact Hsmall).
  cbn [bind]. unfold mann_whitney. destruct (mannwhitneyu a' b') as [u up].
  cbn [bind fst snd].
  destruct (bootstrap_lift_ci G w a' b' n_boot alpha default_seed) as [[lo hi]|e];
    reflexivity.
Qed.

Lemma degenerate_sample_yields_nan_witness :
  welch_t_test sample_sf (Qc_of_ints [1]%Z) (Qc_of_ints [2; 3]%Z) = Ok (XNaN, XNaN).
Proof.
  refine (proj1 (@degenerate_sample_yields_nan sample_sf count_u
                   (Qc_of_ints [1]%Z) (Qc_of_ints [2; 3]%Z) _)).
  left. simpl. lia.
Defined.

End HypothesisTestProperties.

(** ** Bootstrap Estimator *)

Section BootstrapFacts.

Variable G : rnd.BitGenerator.

Lemma choice_length (rng : rnd.state G) (a : list Qc) (n : nat) :
  length (fst (rnd.choice G rng a n)) = n.
Proof.
  revert rng. induction n as [|n IH]; intros rng; simpl; [reflexivity|].
  destruct (rnd.integers G rng (length a)) as [i rng1].
  specialize (IH rng1). destruct (rnd.choice G rng1 a n) as [rest rng2].
  simpl in *. now rewrite IH.
Qed.

Lemma setitem_middle (done rest : list float) (x v : float) :
  rnd.setitem (done ++ x :: rest) (length done) v = done ++ v :: rest.
Proof.
  induction done as [|y done IH]; simpl; [reflexivity|now rewrite IH].
Qed.

(** One turn of the loop writes the entry of the pair it draws. *)
Lemma bootstrap_iteration_spec (a b : list Qc) (rng : rnd.state G)
    (done rest : list float) (x : float) :
  exists rng',
    bootstrap_iteration G a b (rng, done ++ x :: rest) (length done)
    = (rng', done ++ lift_entry (fst (rnd.choice G rng a (length a)),
                                 fst (rnd.choice G
                                        (snd (rnd.choice G rng a (length a)))
                                        b (length b))) :: rest)
    /\ rng' = snd (rnd.choice G (snd (rnd.choice G rng a (length a))) b (length b)).
Proof.
  unfold bootstrap_iteration, lift_entry.
  destruct (rnd.choice G rng a (length a)) as [a_s rng1]. cbn [fst snd].
  destruct (rnd.choice G rng1 b (length b)) as [b_s rng2]. cbn [fst snd].
  exists rng2. split; [|reflexivity].
  destruct (feq0 (np.mean a_s)); now rewrite setitem_middle.
Qed.

(** The loop overwrites every entry of the array, whatever it held, with
    the entries of the successive resample pairs. *)
Lemma loop_fills (a b : list Qc) (k : nat) :
  forall (rng : rnd.state G) (done rest : list float),
    length rest = k ->
    snd (fold_left (bootstrap_iteration G a b) (seq (length done) k)
                   (rng, done ++ rest))
    = done ++ map lift_entry (resample_pairs G rng a b k).
Proof.
  induction k as [|k IH]; intros rng done rest Hlen.
  - destruct rest; [reflexivity|discriminate Hlen].
  - destruct rest as [|x rest]; [discriminate Hlen|].
    injection Hlen as Hlen. cbn [seq fold_left].
    destruct (bootstrap_iteration_spec a b rng done rest x) as [rng' [E Hr]].
    rewrite E. cbn [resample_pairs].
    destruct (rnd.choice G rng a (length a)) as [a_s rng1] eqn:Ea.
    cbn [fst snd] in *.
    destruct (rnd.choice G rng1 b (length b)) as [b_s rng2] eqn:Eb.
    cbn [fst snd] in *. subst rng'.
    replace (done ++ lift_entry (a_s, b_s) :: rest)
      with ((done ++ [lift_entry (a_s, b_s)]) ++ rest)
      by now rewrite <- app_assoc.
    replace (S (length done)) with (length (done ++ [lift_entry (a_s, b_s)]))
      by (rewrite length_app; simpl; lia).
    rewrite (IH rng2 _ rest Hlen). now rewrite <- app_assoc.
Qed.

Lemma resample_pairs_length (rng : rnd.state G) (a b : list Qc) (n : nat) :
  length (resample_pairs G rng a b n) = n.
Proof.
  revert rng. induction n as [|n IH]; intros rng; simpl; [reflexivity|].
  destruct (rnd.choice G rng a (length a)) as [a_s rng1].
  destruct (rnd.choice G rng1 b (length b)) as [b_s rng2].
  simpl. now rewrite IH.
Qed.

Lemma resample_pairs_sizes (a b : list Qc) (n : nat) :
  forall (rng : rnd.state G) (ab : list Qc * list Qc),
    In ab (resample_pairs G rng a b n) ->
    length (fst ab) = length a /\ length (snd ab) = length b.
Proof.
  induction n as [|n IH]; intros rng ab; simpl; [tauto|].
  assert (La := choice_length rng a (length a)).
  destruct (rnd.choice G rng a (length a)) as [a_s rng1].
  assert (Lb := choice_length rng1 b (length b)).
  destruct (rnd.choice G rng1 b (length b)) as [b_s rng2].
  simpl in *. intros [<-|H]; [now split|]. exact (IH rng2 ab H).
Qed.

(** On resamples that are not empty the entries that are not NaN are the
    retained lift values. *)
Lemma not_nan_entries (pairs : list (list Qc * list Qc)) :
  (forall ab, In ab pairs -> fst ab <> [] /\ snd ab <> []) ->
  rnd.not_nan (map lift_entry pairs) = retained_lifts pairs.
Proof.
  induction pairs as [|[a_s b_s] pairs IH]; intros Hne; [reflexivity|].
  unfold rnd.not_nan, retained_lifts in *. cbn [map flat_map].
  rewrite IH by (intros ab H; apply Hne; now right).
  f_equal. destruct (Hne (a_s, b_s)) as [Ha Hb]; [now left|].
  cbn [fst snd] in *. unfold lift_entry. cbn [fst snd].
  rewrite !mean_nonempty by assumption. cbn [feq0 fsub fdiv].
  destruct (Qceqb (sample_mean a_s) 0); reflexivity.
Qed.

(** Each pair is either retained, with one value, or undefined. *)
Lemma retained_count (pairs : list (list Qc * list Qc)) :
  (length (retained_lifts pairs) + length (undefined_lifts pairs))%nat
  = length pairs.
Proof.
  induction pairs as [|ab pairs IH]; [reflexivity|].
  unfold retained_lifts, undefined_lifts in *. cbn [flat_map filter].
  destruct (Qceqb (sample_mean (fst ab)) 0); cbn [app length]; lia.
Qed.

(** [bootstrap_lift_ci] without its loop. *)
Lemma bootstrap_lift_ci_unfolded (w : rnd.World) (a b : Series) (n_boot : Z)
    (alpha : Qc) (seed : option Z) (rng : rnd.state G) :
  rnd.default_rng G seed w = Ok rng ->
  bootstrap_lift_ci G w a b n_boot alpha seed
  = if (n_boot <? 0)%Z then Err Negative_dimensions
    else percentile_interval
           (rnd.not_nan (map lift_entry (resample_pairs G rng a b (Z.to_nat n_boot))))
           alpha.
Proof.
  intros Hrng. unfold bootstrap_lift_ci. rewrite Hrng. cbn [bind].
  unfold rnd.empty. destruct (n_boot <? 0)%Z; [reflexivity|]. cbn [bind].
  assert (H := @loop_fills a b (Z.to_nat n_boot) rng []
                 (map (rnd.uninitialised w) (seq 0 (Z.to_nat n_boot)))).
  cbn [length app] in H.
  destruct (fold_left _ _ _) as [r l].
  cbn [snd] in H. rewrite H by now rewrite length_map, length_seq.
  reflexivity.
Qed.

Lemma default_rng_world (seed : Z) (w1 w2 : rnd.World) :
  rnd.default_rng G (Some seed) w1 = rnd.default_rng G (Some seed) w2.
Proof. reflexivity. Qed.

(** With a seed, the estimator reads nothing of the world. *)
Lemma bootstrap_world_independent (w1 w2 : rnd.World) (a b : Series)
    (n_boot : Z) (alpha : Qc) (seed : Z) :
  bootstrap_lift_ci G w1 a b n_boot alpha (Some seed)
  = bootstrap_lift_ci G w2 a b n_boot alpha (Some seed).
Proof.
  destruct (rnd.default_rng G (Some seed) w1) as [rng|e] eqn:E.
  - rewrite (@bootstrap_lift_ci_unfolded w1 a b n_boot alpha (Some seed) rng E).
    rewrite (default_rng_world seed w1 w2) in E.
    now rewrite (@bootstrap_lift_ci_unfolded w2 a b n_boot alpha (Some seed) rng E).
  - unfold bootstrap_lift_ci. rewrite <- (default_rng_world seed w1 w2), E.
    reflexivity.
Qed.

Lemma half_alpha_valid (alpha : Qc) :
  0 < alpha -> alpha < 1 ->
  np.valid_percentile (alpha / Qc_of_Z 2) = true /\
  np.valid_percentile (1 - alpha / Qc_of_Z 2) = true.
Proof.
  intros H0 H1. unfold Qclt in H0, H1.
  change (this 0) with 0%Q in H0. change (this 1) with 1%Q in H1.
  set (x := alpha / Qc_of_Z 2).
  assert (E : (this x == this alpha * (1 # 2))%Q).
  { unfold x, Qcdiv, Qcmult, Qcinv, Qc_of_Z. rewrite !this_Q2Qc, !Qred_correct.
    reflexivity. }
  assert (E' : (this (1 - x) == 1 - this x)%Q).
  { unfold Qcminus, Qcplus, Qcopp. rewrite !this_Q2Qc, !Qred_correct.
    reflexivity. }
  split; apply valid_percentile_iff; unfold Qcle;
    change (this 0) with 0%Q; change (this 1) with 1%Q;
    rewrite ?E', ?E; split; lra.
Qed.

(** The estimator on samples that are not empty: the percentile interval
    of the retained lift values. *)
Lemma bootstrap_lift_ci_retained (w : rnd.World) (a b : Series) (n_boot : Z)
    (alpha : Qc) (seed : option Z) (rng : rnd.state G) :
  a <> [] -> b <> [] -> (0 <= n_boot)%Z ->
  rnd.default_rng G seed w = Ok rng ->
  bootstrap_lift_ci G w a b n_boot alpha seed
  = percentile_interval
      (retained_lifts (resample_pairs G rng a b (Z.to_nat n_boot))) alpha.
Proof.
  intros Ha Hb Hn Hrng.
  rewrite (@bootstrap_lift_ci_unfolded w a b n_boot alpha seed rng Hrng).
  assert (E : (n_boot <? 0)%Z = false) by now apply Z.ltb_ge.
  rewrite E, not_nan_entries; [reflexivity|].
  intros ab Hab. destruct (resample_pairs_sizes _ _ _ _ _ Hab) as [La Lb].
  split; intros Hnil; rewrite Hnil in *; simpl in *.
  - destruct a; [congruence|discriminate La].
  - destruct b; [congruence|discriminate Lb].
Qed.

Lemma linear_quantile_singleton (v q : Qc) : np.linear_quantile [v] q = v.
Proof.
  rewrite (@linear_quantile_at_rank [v] q 0); [reflexivity|].
  unfold np.virtual_index, Qc_of_nat. cbn [length].
  change (Qc_of_Z (Z.of_nat 1 - 1)) with 0. change (Qc_of_Z (Z.of_nat 0)) with 0.
  ring.
Qed.

(** The percentile interval of fewer than two values. *)
Lemma percentile_interval_few (lifts : list Qc) (alpha : Qc) :
  0 < alpha -> alpha < 1 -> (length lifts < 2)%nat ->
  percentile_interval lifts alpha
  = match lifts with
    | [] => Err Quantile_of_empty_array
    | v :: _ => Ok (v, v)
    end.
Proof.
  intros H0 H1 Hlen. destruct (half_alpha_valid H0 H1) as [V1 V2].
  unfold percentile_interval, np.quantile. rewrite V1, V2.
  destruct lifts as [|v [|v' lifts]]; simpl in Hlen; try lia; cbn [negb bind].
  - reflexivity.
  - now rewrite !linear_quantile_singleton.
Qed.

(** The percentile interval of one value or more. *)
Lemma percentile_interval_defined (lifts : list Qc) (alpha : Qc) :
  0 < alpha -> alpha < 1 -> lifts <> [] ->
  percentile_interval lifts alpha
  = Ok (np.linear_quantile lifts (alpha / Qc_of_Z 2),
        np.linear_quantile lifts (1 - alpha / Qc_of_Z 2)).
Proof.
  intros H0 H1 Hne. destruct (half_alpha_valid H0 H1) as [V1 V2].
  unfold percentile_interval, np.quantile. rewrite V1, V2.
  destruct lifts; [congruence|reflexivity].
Qed.

End BootstrapFacts.

Section BootstrapProperties.

(** C5.  For non-empty samples A and B, a resample count n_boot and alpha
    in (0, 1): the run draws exactly n_boot resample pairs, an iteration
    whose resample of A has mean 0 contributes no lift value and is not
    drawn again (the retained and the undefined iterations number n_boot
    together), and the bounds returned are the alpha/2 and 1 - alpha/2
    quantiles, by linear interpolation, of the retained lift values
    (b_mean - a_mean) / a_mean. *)
Theorem bootstrap_ci_is_percentile_interval_of_retained_lifts
    (G : rnd.BitGenerator) (w : rnd.World) (a b : Series) (n_boot : Z)
    (alpha : Qc) (seed : option Z) (rng : rnd.state G) :
  a <> [] -> b <> [] -> 0 < alpha -> alpha < 1 -> (0 <= n_boot)%Z ->
  rnd.default_rng G seed w = Ok rng ->
  length (resample_pairs G rng a b (Z.to_nat n_boot)) = Z.to_nat n_boot /\
  (length (retained_lifts (resample_pairs G rng a b (Z.to_nat n_boot)))
   + length (undefined_lifts (resample_pairs G rng a b (Z.to_nat n_boot))))%nat
  = Z.to_nat n_boot /\
  bootstrap_lift_ci G w a b n_boot alpha seed
  = percentile_interval
      (retained_lifts (resample_pairs G rng a b (Z.to_nat n_boot))) alpha /\
  (retained_lifts (resample_pairs G rng a b (Z.to_nat n_boot)) <> [] ->
   bootstrap_lift_ci G w a b n_boot alpha seed
   = Ok (np.linear_quantile
           (retained_lifts (resample_pairs G rng a b (Z.to_nat n_boot)))
           (alpha / Qc_of_Z 2),
         np.linear_quantile
           (retained_lifts (resample_pairs G rng a b (Z.to_nat n_boot)))
           (1 - alpha / Qc_of_Z 2))).
Proof.
  intros Ha Hb H0 H1 Hn Hrng.
  split; [apply resample_pairs_length|].
  split; [rewrite retained_count; apply resample_pairs_length|].
  rewrite (@bootstrap_lift_ci_retained G w a b n_boot alpha seed rng) by assumption.
  split; [reflexivity|].
  intros Hne. now apply percentile_interval_defined.
Qed.

Lemma bootstrap_ci_is_percentile_interval_of_retained_lifts_witness :
  bootstrap_lift_ci lcg zero_world scenario_A scenario_B 20 default_alpha default_seed
  = percentile_interval
      (retained_lifts (resample_pairs lcg 42%N scenario_A scenario_B 20))
      default_alpha.
Proof.
  refine (proj1 (proj2 (proj2
    (@bootstrap_ci_is_percentile_interval_of_retained_lifts
       lcg zero_world scenario_A scenario_B 20 default_alpha default_seed 42%N
       _ _ _ _ _ _)))).
  - discriminate.
  - discriminate.
  - vm_compute. reflexivity.
  - vm_compute. reflexivity.
  - lia.
  - reflexivity.
Defined.

(** C6.  With a seed, two invocations of the estimator on the same samples,
    n_boot and alpha return the same result whatever the state of the world
    at each: the generator is made from the seed inside the call, and
    neither the system's entropy nor the uninitialised array is read.  The
    same holds for the analysis, which calls the estimator with the default
    seed. *)
Theorem bootstrap_is_reproducible
    (G : rnd.BitGenerator) (a b : Series) (n_boot : Z) (alpha : Qc) (seed : Z)
    (w1 w2 : rnd.World) :
  bootstrap_lift_ci G w1 a b n_boot alpha (Some seed)
  = bootstrap_lift_ci G w2 a b n_boot alpha (Some seed) /\
  forall parse t_sf mannwhitneyu df g v winsor,
    analyze_ab parse t_sf mannwhitneyu G w1 df g v winsor alpha n_boot
    = analyze_ab parse t_sf mannwhitneyu G w2 df g v winsor alpha n_boot.
Proof.
  split; [apply bootstrap_world_independent|].
  intros parse t_sf mannwhitneyu df g v winsor. unfold analyze_ab.
  destruct (check_inputs parse df g v) as [[a0 b0]|e]; [|reflexivity].
  cbn [bind]. destruct (winsorize_groups winsor a0 b0) as [[a1 b1]|e]; [|reflexivity].
  cbn [bind]. destruct (welch_t_test t_sf a1 b1) as [[t tp]|e]; [|reflexivity].
  cbn [bind]. destruct (mann_whitney mannwhitneyu a1 b1) as [[u up]|e]; [|reflexivity].
  cbn [bind]. unfold default_seed.
  now rewrite (bootstrap_world_independent G w1 w2 a1 b1 n_boot alpha 42).
Qed.

(** Without a seed the generator is seeded from the system's entropy, and
    the bounds change with it. *)
Lemma unseeded_bootstrap_reads_entropy :
  bootstrap_lift_ci lcg zero_world scenario_A scenario_B 20 default_alpha None
  <> bootstrap_lift_ci lcg nan_world scenario_A scenario_B 20 default_alpha None.
Proof.
  intros H.
  apply (f_equal (fun r => match r with
                           | Ok (lo, hi) => Some (this lo, this hi)
                           | Err _ => None
                           end)) in H.
  vm_compute in H. discriminate H.
Qed.

(** C7, counterexample.  With A = [1], B = [2] and one iteration a single
    lift value remains, and the estimator returns bounds, both equal to
    it. *)
Lemma one_lift_value_gives_bounds :
  exists lo hi,
    bootstrap_lift_ci lcg zero_world (Qc_of_ints [1]%Z) (Qc_of_ints [2]%Z) 1
                      default_alpha default_seed
    = Ok (lo, hi) /\
    lo = hi /\
    length (retained_lifts
              (resample_pairs lcg 42%N (Qc_of_ints [1]%Z) (Qc_of_ints [2]%Z) 1))
    = 1%nat.
Proof.
  eexists. eexists. split; [vm_compute; reflexivity|]. split.
  - apply Qc_is_canon. vm_compute. reflexivity.
  - vm_compute. reflexivity.
Qed.

(** C7, amended.  When fewer than 2 lift values remain the estimator has
    no check of its own: with one value left it returns that value as both
    bounds, and with none left the quantile of the empty array raises the
    library's IndexError. *)
Theorem bootstrap_with_few_lift_values
    (G : rnd.BitGenerator) (w : rnd.World) (a b : Series) (n_boot : Z)
    (alpha : Qc) (seed : option Z) (rng : rnd.state G) :
  a <> [] -> b <> [] -> 0 < alpha -> alpha < 1 -> (0 <= n_boot)%Z ->
  rnd.default_rng G seed w = Ok rng ->
  (length (retained_lifts (resample_pairs G rng a b (Z.to_nat n_boot))) < 2)%nat ->
  bootstrap_lift_ci G w a b n_boot alpha seed
  = match retained_lifts (resample_pairs G rng a b (Z.to_nat n_boot)) with
    | [] => Err Quantile_of_empty_array
    | v :: _ => Ok (v, v)
    end.
Proof.
  intros Ha Hb H0 H1 Hn Hrng Hfew.
  rewrite (@bootstrap_lift_ci_retained G w a b n_boot alpha seed rng) by assumption.
  now apply percentile_interval_few.
Qed.

Lemma bootstrap_with_few_lift_values_witness :
  bootstrap_lift_ci lcg zero_world (Qc_of_ints [0]%Z) (Qc_of_ints [2]%Z) 3
                    default_alpha default_seed
  = match retained_lifts
            (resample_pairs lcg 42%N (Qc_of_ints [0]%Z) (Qc_of_ints [2]%Z) 3) with
    | [] => Err Quantile_of_empty_array
    | v :: _ => Ok (v, v)
    end.
Proof.
  refine (@bootstrap_with_few_lift_values
            lcg zero_world (Qc_of_ints [0]%Z) (Qc_of_ints [2]%Z) 3
            default_alpha default_seed 42%N _ _ _ _ _ _ _).
  - discriminate.
  - discriminate.
  - vm_compute. reflexivity.
  - vm_compute. reflexivity.
  - lia.
  - reflexivity.
  - vm_compute. lia.
Defined.

End BootstrapProperties.

(** * Further properties *)

(** ** Input Validator: errors and the split *)

Section ValidatorMoreFacts.

Import pd.

Variable parse : string -> float.

Lemma has_column_In (df : DataFrame) (c : string) :
  has_column df c = true <-> In c (columns df).
Proof.
  unfold has_column. rewrite existsb_exists. split.
  - intros [x [Hx E]]. apply String.eqb_eq in E. now subst.
  - intros H. exists c. split; [exact H|apply String.eqb_refl].
Qed.

Lemma has_column_not_In (df : DataFrame) (c : string) :
  has_column df c = false <-> ~ In c (columns df).
Proof.
  rewrite <- has_column_In. destruct (has_column df c); split; congruence.
Qed.

(** [sorted] raises nothing but the TypeError of a comparison. *)
Lemma insert_error (x : cell) (l : list cell) (e : error) :
  py.insert x l = Err e -> e = Unorderable_labels.
Proof.
  induction l as [|y l IH]; simpl; [discriminate|].
  destruct (py.lt y x) as [c|e'] eqn:E.
  - cbn [bind]. destruct c; [|discriminate].
    destruct (py.insert x l) as [r|e'']; cbn [bind]; [discriminate|].
    intros H. injection H as <-. now apply IH.
  - cbn [bind]. intros H. injection H as <-.
    destruct y, x; simpl in E; congruence.
Qed.

Lemma sorted_error (l : list cell) (e : error) :
  py.sorted l = Err e -> e = Unorderable_labels.
Proof.
  induction l as [|x l IH]; simpl; [discriminate|].
  destruct (py.sorted l) as [r|e']; cbn [bind].
  - apply insert_error.
  - intros H. injection H as <-. now apply IH.
Qed.

(** Two different labels of one kind are ordered one way or the other. *)
Lemma lt_total (x y : cell) :
  py.lt y x = Ok false -> x <> y -> py.lt x y = Ok true.
Proof.
  destruct x as [|a|a], y as [|b|b]; simpl; try discriminate.
  - intros H Hne. injection H as H. f_equal. unfold String.ltb in *.
    rewrite String.compare_antisym.
    destruct (String.compare b a) eqn:E; try discriminate H; [|reflexivity].
    apply String.compare_eq_iff in E. subst. congruence.
  - intros H Hne. injection H as H. f_equal. apply Qcltb_lt.
    apply Qcltb_ge in H. destruct (Qcle_lt_or_eq _ _ H) as [Hlt|Heq];
      [exact Hlt|subst; congruence].
Qed.

(** The sort of two different labels, when it succeeds, puts the smaller
    first. *)
Lemma sorted_pair (x y : cell) (groups : list cell) :
  x <> y -> py.sorted [x; y] = Ok groups ->
  exists la lb, groups = [la; lb] /\ py.lt la lb = Ok true /\
                (forall l, In l [x; y] <-> l = la \/ l = lb).
Proof.
  intros Hne. simpl. destruct (py.lt y x) as [c|e] eqn:E; cbn [bind]; [|discriminate].
  destruct c; cbn [bind]; intros H; injection H as <-.
  - exists y, x. split; [reflexivity|]. split; [exact E|].
    intros l. simpl. intuition congruence.
  - exists x, y. split; [reflexivity|]. split; [now apply lt_total|].
    intros l. simpl. intuition congruence.
Qed.

(** A list splits into the members that satisfy a test and those that
    satisfy its complement. *)
Lemma filter_partition (A : Type) (p q : A -> bool) (l : list A) :
  (forall x, In x l -> q x = negb (p x)) ->
  Permutation (filter p l ++ filter q l) l.
Proof.
  induction l as [|x l IH]; intros H; [constructor|].
  assert (Hx := H x (or_introl eq_refl)).
  assert (IH' : Permutation (filter p l ++ filter q l) l)
    by (apply IH; intros y Hy; apply H; now right).
  cbn [filter]. rewrite Hx. destruct (p x); cbn [negb].
  - simpl. now constructor.
  - apply Permutation_sym, Permutation_cons_app, Permutation_sym, IH'.
Qed.

Lemma loc_not_empty (fr : list (cell * Qc)) (l : cell) :
  isna l = false -> In l (map fst fr) -> loc fr l <> [].
Proof.
  intros Hna Hin. apply in_map_iff in Hin. destruct Hin as [[l' x] [E Hin]].
  simpl in E. subst l'. unfold loc. intros Hnil.
  assert (Hx : In x (map snd (filter (fun gv => cell_eqb (fst gv) l) fr))).
  { apply in_map_iff. exists (l, x). split; [reflexivity|].
    apply filter_In. split; [exact Hin|]. simpl. now apply cell_eqb_refl. }
  rewrite Hnil in Hx. exact Hx.
Qed.

(** The outcome of [check_inputs] once both columns are there, the names
    differ and a complete row exists. *)
Lemma check_inputs_main_path (df : DataFrame) (g v : string) :
  has_column df g = true -> has_column df v = true -> g <> v ->
  dropna (select2 df g v) <> [] ->
  check_inputs parse df g v
  = if negb (nunique (map fst (cleaned parse df g v)) =? 2)%nat then
      Err (Expected_exactly_2_groups (nunique (map fst (cleaned parse df g v))))
    else
      groups <- py.sorted (unique (map fst (cleaned parse df g v))) ;;
      match groups with
      | [a_label; b_label] =>
          Ok (loc (cleaned parse df g v) a_label, loc (cleaned parse df g v) b_label)
      | _ => Err Index_out_of_range
      end.
Proof.
  intros Hg Hv Hgv Hne. unfold check_inputs, cleaned. rewrite Hg, Hv. cbn [negb orb].
  destruct (dropna (select2 df g v)) as [|r0 rs]; [congruence|].
  apply String.eqb_neq in Hgv. now rewrite Hgv.
Qed.

(** The distinct labels counted by [nunique]. *)
Lemma nunique_count (l ls : list cell) :
  (forall x, In x l -> isna x = false) ->
  NoDup ls -> (forall x, In x l <-> In x ls) ->
  nunique l = length ls.
Proof.
  intros Hna Hnd Hmem. unfold nunique. apply Permutation_length.
  apply NoDup_Permutation; [now apply NoDup_unique|exact Hnd|].
  intros x. rewrite <- Hmem. split; [apply unique_incl|].
  intros Hx. apply in_unique; [now apply Hna|exact Hx].
Qed.

End ValidatorMoreFacts.

Section ValidatorMoreProperties.

Import pd.

(** X1.  When the group column or the value column is not among the columns
    of the frame, [check_inputs] raises the missing-columns error, and the
    names it reports are exactly those of the two that are absent, each
    once; the rows are not looked at. *)
Theorem missing_columns_are_reported
    (parse : string -> float) (df : DataFrame) (g v : string) :
  has_column df g = false \/ has_column df v = false ->
  exists missing,
    check_inputs parse df g v = Err (Missing_required_columns missing) /\
    NoDup missing /\
    forall c, In c missing <-> (c = g \/ c = v) /\ ~ In c (columns df).
Proof.
  intros H. exists (py.set_difference [g; v] (columns df)). split.
  - unfold check_inputs.
    destruct H as [H|H]; rewrite H; cbn [negb orb]; [reflexivity|].
    now rewrite orb_true_r.
  - unfold py.set_difference. split.
    + apply NoDup_filter, NoDup_nodup.
    + intros c. rewrite filter_In, nodup_In, negb_true_iff.
      fold (has_column df c). rewrite has_column_not_In. simpl.
      intuition congruence.
Qed.

Lemma missing_columns_are_reported_witness :
  exists missing,
    check_inputs parse_decimal control_first_frame "group" "rev"
    = Err (Missing_required_columns missing) /\
    (In "rev"%string missing /\ ~ In "group"%string missing).
Proof.
  destruct (@missing_columns_are_reported parse_decimal control_first_frame
              "group" "rev") as [m [H [_ Hm]]].
  - right. reflexivity.
  - exists m. split; [exact H|]. split.
    + apply Hm. split; [now right|]. vm_compute. intuition discriminate.
    + intros Hin. apply Hm in Hin. destruct Hin as [_ Hin]. apply Hin.
      vm_compute. now left.
Defined.

(** X2.  With both columns present, [check_inputs] raises the no-data error
    exactly when every row of the frame lacks its group or its value, a
    frame without rows included. *)
Theorem no_data_iff_every_row_incomplete
    (parse : string -> float) (df : DataFrame) (g v : string) :
  has_column df g = true -> has_column df v = true ->
  (check_inputs parse df g v = Err No_data_after_dropping_NA <->
   forall r, In r (rows df) -> isna (r g) = true \/ isna (r v) = true).
Proof.
  intros Hg Hv. unfold check_inputs. rewrite Hg, Hv. cbn [negb orb].
  destruct (dropna (select2 df g v)) as [|r0 rs] eqn:Ed.
  - split; [|reflexivity]. intros _ r Hr.
    destruct (isna (r g)) eqn:E1; [now left|].
    destruct (isna (r v)) eqn:E2; [now right|]. exfalso.
    assert (Hin : In (r g, r v) (dropna (select2 df g v))).
    { apply filter_In. split.
      - unfold select2. apply in_map_iff. now exists r.
      - simpl. now rewrite E1, E2. }
    rewrite Ed in Hin. exact Hin.
  - split.
    + intros H. exfalso.
      destruct (String.eqb g v); [discriminate H|].
      destruct (negb _); [discriminate H|].
      destruct (py.sorted _) as [groups|e] eqn:Es.
      * cbn [bind] in H. destruct groups as [|x [|y [|z l]]]; discriminate H.
      * cbn [bind] in H. apply sorted_error in Es. congruence.
    + intros H. exfalso.
      assert (Hin : In r0 (dropna (select2 df g v))) by (rewrite Ed; now left).
      apply filter_In in Hin. destruct Hin as [Hin Hc].
      apply in_map_iff in Hin. destruct Hin as [r [<- Hr]]. simpl in Hc.
      destruct (H r Hr) as [E|E]; rewrite E in Hc; simpl in Hc;
        [discriminate Hc|]. rewrite andb_false_r in Hc. discriminate Hc.
Qed.

Lemma no_data_iff_every_row_incomplete_witness :
  check_inputs parse_decimal incomplete_frame "group" "revenue"
  = Err No_data_after_dropping_NA.
Proof.
  apply (proj2 (@no_data_iff_every_row_incomplete parse_decimal incomplete_frame
                  "group" "revenue" eq_refl eq_refl)).
  intros r Hr. vm_compute in Hr.
  repeat (destruct Hr as [<-|Hr]; [vm_compute; auto|]). contradiction.
Defined.

(** X3.  With both columns present under different names and at least one
    complete row, a frame whose cleaned rows carry n distinct group labels,
    n other than 2, makes [check_inputs] raise the group-count error
    reporting n. *)
Theorem wrong_group_count_is_reported
    (parse : string -> float) (df : DataFrame) (g v : string) (ls : list cell) :
  has_column df g = true -> has_column df v = true -> g <> v ->
  dropna (select2 df g v) <> [] ->
  NoDup ls -> (forall l, In l (map fst (cleaned parse df g v)) <-> In l ls) ->
  length ls <> 2%nat ->
  check_inputs parse df g v = Err (Expected_exactly_2_groups (length ls)).
Proof.
  intros Hg Hv Hgv Hne Hnd Hmem Hlen.
  rewrite check_inputs_main_path by assumption.
  rewrite (@nunique_count (map fst (cleaned parse df g v)) ls);
    try assumption.
  - apply Nat.eqb_neq in Hlen. now rewrite Hlen.
  - intros x. apply cleaned_label_not_na.
Qed.

Lemma wrong_group_count_is_reported_witness :
  check_inputs parse_decimal three_group_frame "group" "revenue"
  = Err (Expected_exactly_2_groups 3).
Proof.
  apply (@wrong_group_count_is_reported parse_decimal three_group_frame
           "group" "revenue" [Text "A"; Text "B"; Text "C"]).
  - reflexivity.
  - reflexivity.
  - discriminate.
  - vm_compute. discriminate.
  - repeat constructor; simpl; intuition discriminate.
  - intros l. vm_compute. intuition.
  - simpl. lia.
Defined.

(** The labels behind a pair of samples that [check_inputs] returns. *)
Lemma check_inputs_inversion
    (parse : string -> float) (df : DataFrame) (g v : string) (a b : Series) :
  check_inputs parse df g v = Ok (a, b) ->
  exists la lb,
    py.lt la lb = Ok true /\
    (forall l, In l (map fst (cleaned parse df g v)) <-> l = la \/ l = lb) /\
    a = loc (cleaned parse df g v) la /\
    b = loc (cleaned parse df g v) lb /\
    has_column df g = true /\ has_column df v = true /\ g <> v.
Proof.
  intros H.
  (* the path taken *)
  assert (Hg : has_column df g = true).
  { unfold check_inputs in H. destruct (has_column df g); [reflexivity|discriminate H]. }
  assert (Hv : has_column df v = true).
  { unfold check_inputs in H. rewrite Hg in H.
    destruct (has_column df v); [reflexivity|discriminate H]. }
  assert (Hne : dropna (select2 df g v) <> []).
  { unfold check_inputs in H. rewrite Hg, Hv in H. cbn [negb orb] in H.
    destruct (dropna (select2 df g v)); [discriminate H|discriminate]. }
  assert (Hgv : g <> v).
  { unfold check_inputs in H. rewrite Hg, Hv in H. cbn [negb orb] in H.
    destruct (dropna (select2 df g v)); [discriminate H|].
    destruct (String.eqb g v) eqn:E; [discriminate H|]. now apply String.eqb_neq. }
  rewrite check_inputs_main_path in H by assumption.
  set (c := cleaned parse df g v) in *.
  destruct (nunique (map fst c) =? 2)%nat eqn:En; cbn [negb] in H; [|discriminate H].
  apply Nat.eqb_eq in En. unfold nunique in En.
  assert (Hna : forall x, In x (map fst c) -> isna x = false)
    by (intros x; apply cleaned_label_not_na).
  assert (Hnd := NoDup_unique (map fst c) Hna).
  destruct (unique (map fst c)) as [|x [|y [|z u]]] eqn:Eu; try discriminate En.
  assert (Hxy : x <> y).
  { inversion Hnd as [|? ? Hnx _]; subst. intros ->. apply Hnx. now left. }
  destruct (py.sorted [x; y]) as [groups|e] eqn:Es; cbn [bind] in H; [|discriminate H].
  destruct (sorted_pair Hxy Es) as [la [lb [-> [Hlt Hmem]]]].
  injection H as <- <-.
  exists la, lb. repeat split; try assumption; try reflexivity.
  - intros Hl. apply Hmem. rewrite <- Eu. apply in_unique; [now apply Hna|exact Hl].
  - intros Hl. apply unique_incl. rewrite Eu. now apply Hmem.
Qed.

(** X4.  When [check_inputs] returns samples (A, B), the cleaned rows carry
    exactly two labels [la < lb], A holds the values of the rows labelled
    [la] and B those of the rows labelled [lb], in row order, neither sample
    is empty, and together the two samples hold every cleaned value exactly
    once. *)
Theorem returned_samples_split_the_cleaned_rows
    (parse : string -> float) (df : DataFrame) (g v : string) (a b : Series) :
  check_inputs parse df g v = Ok (a, b) ->
  exists la lb,
    py.lt la lb = Ok true /\
    (forall l, In l (map fst (cleaned parse df g v)) <-> l = la \/ l = lb) /\
    a = loc (cleaned parse df g v) la /\
    b = loc (cleaned parse df g v) lb /\
    a <> [] /\ b <> [] /\
    Permutation (a ++ b) (map snd (cleaned parse df g v)).
Proof.
  intros H.
  destruct (@check_inputs_inversion _ _ _ _ _ _ H) as [la [lb [Hlt [Hlab [-> [-> _]]]]]].
  set (c := cleaned parse df g v) in *.
  assert (Hna : forall x, In x (map fst c) -> isna x = false)
    by (intros x; apply cleaned_label_not_na).
  destruct (lt_asymmetric _ _ Hlt) as [_ Hne'].
  exists la, lb. repeat split; try assumption; try apply Hlab.
  - apply loc_not_empty; [|apply Hlab; now left]. apply Hna, Hlab. now left.
  - apply loc_not_empty; [|apply Hlab; now right]. apply Hna, Hlab. now right.
  - unfold loc. rewrite <- map_app. apply Permutation_map, filter_partition.
    intros [l q] Hin. simpl.
    assert (Hl : l = la \/ l = lb) by (apply Hlab, in_map_iff; now exists (l, q)).
    assert (Hnl : isna l = false) by (apply Hna, in_map_iff; now exists (l, q)).
    destruct Hl as [-> | ->].
    + rewrite (cell_eqb_refl _ Hnl). simpl.
      destruct (cell_eqb la lb) eqn:E; [|reflexivity].
      apply cell_eqb_eq in E. destruct E; congruence.
    + rewrite (cell_eqb_refl _ Hnl).
      destruct (cell_eqb lb la) eqn:E; [|reflexivity].
      apply cell_eqb_eq in E. destruct E; congruence.
Qed.

Lemma returned_samples_split_the_cleaned_rows_witness :
  exists a b la lb,
    check_inputs parse_decimal variant_first_frame "group" "revenue" = Ok (a, b) /\
    py.lt la lb = Ok true /\ a <> [] /\ b <> [] /\
    Permutation (a ++ b)
      (map snd (cleaned parse_decimal variant_first_frame "group" "revenue")).
Proof.
  destruct (check_inputs parse_decimal variant_first_frame "group" "revenue")
    as [[a b]|e] eqn:E; [|vm_compute in E; discriminate E].
  destruct (@returned_samples_split_the_cleaned_rows _ _ _ _ _ _ E)
    as [la [lb [H1 [_ [_ [_ [H2 [H3 H4]]]]]]]].
  exists a, b, la, lb. repeat split; assumption.
Defined.

(** X5.  When the cleaned rows carry exactly two labels of different kinds,
    one text and one number, they cannot be ordered and [check_inputs]
    raises the TypeError of the sort, not one of its own errors. *)
Theorem labels_of_two_kinds_are_rejected
    (parse : string -> float) (df : DataFrame) (g v : string) (s : string) (x : Qc) :
  has_column df g = true -> has_column df v = true -> g <> v ->
  (forall l, In l (map fst (cleaned parse df g v)) <-> l = Text s \/ l = Number x) ->
  check_inputs parse df g v = Err Unorderable_labels.
Proof.
  intros Hg Hv Hgv Hmem.
  assert (Hin : In (Text s) (map fst (cleaned parse df g v))) by (apply Hmem; now left).
  assert (Hne : dropna (select2 df g v) <> []).
  { intros E. unfold cleaned in Hin. now rewrite E in Hin. }
  rewrite check_inputs_main_path by assumption.
  assert (Hna : forall l, In l (map fst (cleaned parse df g v)) -> isna l = false)
    by (intros l; apply cleaned_label_not_na).
  assert (Hu : unique (map fst (cleaned parse df g v)) = [Text s; Number x] \/
               unique (map fst (cleaned parse df g v)) = [Number x; Text s]).
  { apply two_members; [now apply NoDup_unique|discriminate|].
    intros l. rewrite <- Hmem. split; [apply unique_incl|].
    intros Hl. apply in_unique; [now apply Hna|exact Hl]. }
  unfold nunique. destruct Hu as [-> | ->]; reflexivity.
Qed.

Lemma labels_of_two_kinds_are_rejected_witness :
  check_inputs parse_decimal mixed_label_frame "group" "revenue"
  = Err Unorderable_labels.
Proof.
  apply (@labels_of_two_kinds_are_rejected parse_decimal mixed_label_frame
           "group" "revenue" "A" (Qc_of_Z 1)).
  - reflexivity.
  - reflexivity.
  - discriminate.
  - intros l. vm_compute. intuition.
Defined.

End ValidatorMoreProperties.

(** ** Quantiles by linear interpolation *)

Section QuantileFacts.

Import np.

Lemma this_plus (x y : Qc) : (this (x + y) == this x + this y)%Q.
Proof. unfold Qcplus. rewrite this_Q2Qc. apply Qred_correct. Qed.

Lemma this_opp (x : Qc) : (this (- x) == - this x)%Q.
Proof. unfold Qcopp. rewrite this_Q2Qc. apply Qred_correct. Qed.

Lemma this_minus (x y : Qc) : (this (x - y) == this x - this y)%Q.
Proof. unfold Qcminus. rewrite this_plus, this_opp. reflexivity. Qed.

Lemma this_mult (x y : Qc) : (this (x * y) == this x * this y)%Q.
Proof. unfold Qcmult. rewrite this_Q2Qc. apply Qred_correct. Qed.

Lemma this_lerp (a b g : Qc) :
  (this (lerp a b g) == this a + (this b - this a) * this g)%Q.
Proof. unfold lerp. rewrite this_plus, this_mult, this_minus. reflexivity. Qed.

(** An interpolated value lies between its two ends. *)
Lemma lerp_between (a b g : Qc) :
  a <= b -> 0 <= g -> g <= 1 -> a <= lerp a b g /\ lerp a b g <= b.
Proof.
  unfold Qcle. rewrite this_lerp. change (this 0) with 0%Q. change (this 1) with 1%Q.
  intros Hab Hg0 Hg1.
  assert (P1 : (0 <= (this b - this a) * this g)%Q)
    by (apply Qmult_le_0_compat; lra).
  assert (P2 : (0 <= (this b - this a) * (1 - this g))%Q)
    by (apply Qmult_le_0_compat; lra).
  split; lra.
Qed.

Lemma lerp_monotone (a b g1 g2 : Qc) :
  a <= b -> g1 <= g2 -> lerp a b g1 <= lerp a b g2.
Proof.
  unfold Qcle. rewrite !this_lerp. intros Hab Hg.
  assert (P : (0 <= (this b - this a) * (this g2 - this g1))%Q)
    by (apply Qmult_le_0_compat; lra).
  lra.
Qed.

(** A non-negative number is a natural number plus a fraction below 1. *)
Lemma floor_decomposition (h : Qc) :
  0 <= h ->
  Qc_of_Z (Qfloor h) = Qc_of_nat (Z.to_nat (Qfloor h)) /\
  0 <= h - Qc_of_Z (Qfloor h) /\ h - Qc_of_Z (Qfloor h) < 1.
Proof.
  intros Hh.
  assert (H0 : (0 <= Qfloor h)%Z).
  { change 0%Z with (Qfloor 0). apply Qfloor_resp_le. exact Hh. }
  split; [unfold Qc_of_nat; now rewrite Z2Nat.id|].
  assert (L := Qfloor_le h). assert (U := Qlt_floor h).
  rewrite inject_Z_plus in U. change (inject_Z 1) with 1%Q in U.
  unfold Qcle, Qclt. rewrite this_minus, this_Qc_of_Z.
  change (this 0) with 0%Q. change (this 1) with 1%Q. split; lra.
Qed.

Lemma virtual_index_range (n : nat) (q : Qc) :
  (1 <= n)%nat -> 0 <= q -> q <= 1 ->
  0 <= virtual_index n q /\ virtual_index n q <= Qc_of_Z (Z.of_nat n - 1).
Proof.
  intros Hn H0 H1. unfold virtual_index.
  assert (Hm : 0 <= Qc_of_Z (Z.of_nat n - 1)).
  { change 0 with (Qc_of_Z 0). apply (proj1 (Qc_of_Z_inj_le _ _)). lia. }
  revert H0 H1 Hm. generalize (Qc_of_Z (Z.of_nat n - 1)). intros m.
  unfold Qcle. rewrite this_mult. change (this 0) with 0%Q. change (this 1) with 1%Q.
  intros H0 H1 Hm.
  assert (P1 : (0 <= this q * this m)%Q) by (apply Qmult_le_0_compat; lra).
  assert (P2 : (0 <= (1 - this q) * this m)%Q) by (apply Qmult_le_0_compat; lra).
  split; lra.
Qed.

(** The quantile of a non-empty array at a valid [q]: the rank [k] below the
    virtual index, the rank above it, and the fraction between them. *)
Lemma linear_quantile_ranks (xs : list Qc) (q : Qc) :
  xs <> [] -> 0 <= q -> q <= 1 ->
  exists (k : nat) (g : Qc),
    (k < length xs)%nat /\ 0 <= g /\ g < 1 /\
    virtual_index (length xs) q = Qc_of_nat k + g /\
    linear_quantile xs q
    = lerp (nth k (sort xs) 0) (nth (Nat.min (S k) (length xs - 1)) (sort xs) 0) g.
Proof.
  intros Hne H0 H1.
  assert (Hn : (1 <= length xs)%nat) by (destruct xs; [congruence|simpl; lia]).
  destruct (virtual_index_range Hn H0 H1) as [Hh0 Hh1].
  destruct (floor_decomposition Hh0) as [Hk [Hg0 Hg1]].
  exists (Z.to_nat (Qfloor (virtual_index (length xs) q))),
         (virtual_index (length xs) q - Qc_of_Z (Qfloor (virtual_index (length xs) q))).
  repeat split; try assumption.
  - assert (Hf : (Qfloor (virtual_index (length xs) q) <= Z.of_nat (length xs) - 1)%Z).
    { rewrite <- (Qfloor_Qc_of_Z (Z.of_nat (length xs) - 1)).
      apply Qfloor_resp_le. exact Hh1. }
    assert (Hf0 : (0 <= Qfloor (virtual_index (length xs) q))%Z).
    { change 0%Z with (Qfloor 0). apply Qfloor_resp_le. exact Hh0. }
    lia.
  - rewrite <- Hk. ring.
Qed.

Lemma sort_nth_le (xs : list Qc) (i j : nat) :
  (i <= j)%nat -> (j < length xs)%nat -> nth i (sort xs) 0 <= nth j (sort xs) 0.
Proof.
  intros Hij Hj. apply sorted_nth_le; [apply sort_sorted|exact Hij|].
  now rewrite sort_length.
Qed.

(** The quantile lies between the smallest and the largest value. *)
Lemma linear_quantile_between (xs : list Qc) (q : Qc) :
  xs <> [] -> 0 <= q -> q <= 1 ->
  nth 0 (sort xs) 0 <= linear_quantile xs q /\
  linear_quantile xs q <= nth (length xs - 1) (sort xs) 0.
Proof.
  intros Hne H0 H1.
  destruct (linear_quantile_ranks Hne H0 H1) as [k [g [Hk [Hg0 [Hg1 [_ ->]]]]]].
  destruct (@lerp_between (nth k (sort xs) 0)
              (nth (Nat.min (S k) (length xs - 1)) (sort xs) 0) g) as [L U].
  - apply sort_nth_le; lia.
  - exact Hg0.
  - now apply Qclt_le_weak.
  - split.
    + eapply Qcle_trans; [|exact L]. apply sort_nth_le; lia.
    + eapply Qcle_trans; [exact U|]. apply sort_nth_le; lia.
Qed.

Lemma Qc_of_nat_le (i j : nat) : Qc_of_nat i <= Qc_of_nat j -> (i <= j)%nat.
Proof.
  unfold Qc_of_nat. intros H. apply (proj2 (Qc_of_Z_inj_le _ _)) in H. lia.
Qed.

(** The quantile does not decrease with [q]. *)
Lemma linear_quantile_monotone (xs : list Qc) (q1 q2 : Qc) :
  xs <> [] -> 0 <= q1 -> q1 <= q2 -> q2 <= 1 ->
  linear_quantile xs q1 <= linear_quantile xs q2.
Proof.
  intros Hne H0 H12 H1.
  assert (H1' : q1 <= 1) by (eapply Qcle_trans; eassumption).
  assert (H0' : 0 <= q2) by (eapply Qcle_trans; eassumption).
  assert (Hn : (1 <= length xs)%nat) by (destruct xs; [congruence|simpl; lia]).
  (* the virtual indices are ordered *)
  assert (Hh : virtual_index (length xs) q1 <= virtual_index (length xs) q2).
  { unfold virtual_index.
    assert (Hm : 0 <= Qc_of_Z (Z.of_nat (length xs) - 1)).
    { change 0 with (Qc_of_Z 0). apply (proj1 (Qc_of_Z_inj_le _ _)). lia. }
    revert Hm H12. generalize (Qc_of_Z (Z.of_nat (length xs) - 1)). intros m.
    unfold Qcle. rewrite !this_mult. change (this 0) with 0%Q. intros Hm H12.
    assert (P : (0 <= (this q2 - this q1) * this m)%Q)
      by (apply Qmult_le_0_compat; lra).
    lra. }
  destruct (linear_quantile_ranks Hne H0 H1') as [k1 [g1 [Hk1 [Hg1 [Hg1' [E1 ->]]]]]].
  destruct (linear_quantile_ranks Hne H0' H1) as [k2 [g2 [Hk2 [Hg2 [Hg2' [E2 ->]]]]]].
  rewrite E1, E2 in Hh.
  set (s := sort xs).
  assert (Hs : forall i j, (i <= j)%nat -> (j < length xs)%nat ->
                           nth i s 0 <= nth j s 0)
    by (intros; now apply sort_nth_le).
  assert (Hk12 : (k1 <= k2)%nat).
  { assert (Hlt : Qc_of_nat k1 < Qc_of_nat k2 + 1).
    { revert Hh Hg1 Hg2'. unfold Qcle, Qclt. rewrite !this_plus.
      change (this 0) with 0%Q. change (this 1) with 1%Q. lra. }
    assert (Hle : Qc_of_nat k1 <= Qc_of_nat k2).
    { unfold Qc_of_nat in *. apply (proj1 (Qc_of_Z_inj_le _ _)).
      assert (Hz : (Z.of_nat k1 < Z.of_nat k2 + 1)%Z).
      { revert Hlt. unfold Qclt. rewrite this_plus, !this_Qc_of_Z.
        change (this 1) with (inject_Z 1). rewrite <- inject_Z_plus, <- Zlt_Qlt.
        trivial. }
      lia. }
    now apply Qc_of_nat_le. }
  destruct (@lerp_between (nth k1 s 0) (nth (Nat.min (S k1) (length xs - 1)) s 0) g1)
    as [_ U1]; [apply Hs; lia|exact Hg1|now apply Qclt_le_weak|].
  destruct (@lerp_between (nth k2 s 0) (nth (Nat.min (S k2) (length xs - 1)) s 0) g2)
    as [L2 _]; [apply Hs; lia|exact Hg2|now apply Qclt_le_weak|].
  destruct (Nat.eq_dec k1 k2) as [->|Hneq].
  - apply lerp_monotone; [apply Hs; lia|].
    revert Hh. unfold Qcle. rewrite !this_plus. lra.
  - eapply Qcle_trans; [exact U1|]. eapply Qcle_trans; [|exact L2].
    apply Hs; lia.
Qed.

(** Sorting rearranges. *)
Lemma insert_permutation (x : Qc) (l : list Qc) : Permutation (insert x l) (x :: l).
Proof.
  induction l as [|y l IH]; simpl; [apply Permutation_refl|].
  destruct (Qcleb x y); [apply Permutation_refl|].
  eapply Permutation_trans; [apply perm_skip, IH|apply perm_swap].
Qed.

Lemma sort_permutation (l : list Qc) : Permutation (sort l) l.
Proof.
  induction l as [|x l IH]; simpl; [constructor|].
  eapply Permutation_trans; [apply insert_permutation|now constructor].
Qed.

(** Two sorted lists with the same members, counted, are the same list. *)
Lemma sorted_permutation_unique (l l' : list Qc) :
  Sorted Qcle l -> Sorted Qcle l' -> Permutation l l' -> l = l'.
Proof.
  intros Hs Hs'.
  apply Sorted_StronglySorted in Hs; [|intros x y z; apply Qcle_trans].
  apply Sorted_StronglySorted in Hs'; [|intros x y z; apply Qcle_trans].
  revert l' Hs'. induction Hs as [|x l Hs IH Hall]; intros l' Hs' Hp.
  - apply Permutation_nil in Hp. now subst.
  - destruct Hs' as [|y l' Hs' Hall'].
    + apply Permutation_sym, Permutation_nil in Hp. discriminate Hp.
    + assert (Hxy : x = y).
      { rewrite Forall_forall in Hall, Hall'.
        assert (Hx : In x (y :: l')) by (eapply Permutation_in; [exact Hp|now left]).
        assert (Hy : In y (x :: l))
          by (eapply Permutation_in; [apply Permutation_sym, Hp|now left]).
        destruct Hx as [Hx|Hx]; [now subst|]. destruct Hy as [Hy|Hy]; [now subst|].
        apply Qcle_antisym; [now apply Hall|now apply Hall']. }
      subst y. f_equal. apply IH; [exact Hs'|].
      eapply Permutation_cons_inv; exact Hp.
Qed.

Lemma sort_of_permutation (l l' : list Qc) : Permutation l l' -> sort l = sort l'.
Proof.
  intros Hp. apply sorted_permutation_unique; try apply sort_sorted.
  eapply Permutation_trans; [apply sort_permutation|].
  eapply Permutation_trans; [exact Hp|apply Permutation_sym, sort_permutation].
Qed.

Lemma linear_quantile_of_permutation (l l' : list Qc) (q : Qc) :
  Permutation l l' -> linear_quantile l q = linear_quantile l' q.
Proof.
  intros Hp. unfold linear_quantile.
  now rewrite (sort_of_permutation Hp), (Permutation_length Hp).
Qed.

(** An order statistic is one of the values. *)
Lemma sort_nth_In (xs : list Qc) (i : nat) :
  (i < length xs)%nat -> In (nth i (sort xs) 0) xs.
Proof.
  intros Hi. eapply Permutation_in; [apply sort_permutation|].
  apply nth_In. now rewrite sort_length.
Qed.

End QuantileFacts.

(** ** Winsorizer: failure, range, order *)

Section WinsorizerMoreFacts.

Import pd.

(** The two ways [winsorize_series] returns for a proportion of at most 1:
    the input itself, or the input clipped between the two quantiles. *)
Lemma winsorize_shape (s : Series) (p : Qc) :
  p <= 1 ->
  (winsorize s p = Ok s /\ (p <= 0 \/ s = [])) \/
  (0 < p /\ s <> [] /\
   winsorize s p
   = Ok (map (clip_between
                (Qcmin (np.linear_quantile s p) (np.linear_quantile s (1 - p)))
                (Qcmax (np.linear_quantile s p) (np.linear_quantile s (1 - p)))) s)).
Proof.
  intros Hp1. destruct (Qclt_le_dec 0 p) as [Hpos|Hle].
  - destruct s as [|x s].
    + left. split; [|now right]. apply winsorize_empty; [now apply Qclt_le_weak|exact Hp1].
    + right. split; [exact Hpos|]. split; [discriminate|].
      now apply winsorize_clips.
  - left. split; [|now left]. unfold winsorize, winsorize_series.
    apply Qcleb_le in Hle. now rewrite Hle.
Qed.

Lemma Qcmin_cases (x y : Qc) : (Qcmin x y = x /\ x <= y) \/ (Qcmin x y = y /\ y <= x).
Proof.
  unfold Qcmin. destruct (Qcleb x y) eqn:E.
  - left. split; [reflexivity|now apply Qcleb_le].
  - right. split; [reflexivity|]. apply Qcleb_gt in E. now apply Qclt_le_weak.
Qed.

Lemma Qcmax_cases (x y : Qc) : (Qcmax x y = y /\ x <= y) \/ (Qcmax x y = x /\ y <= x).
Proof.
  unfold Qcmax. destruct (Qcleb x y) eqn:E.
  - left. split; [reflexivity|now apply Qcleb_le].
  - right. split; [reflexivity|]. apply Qcleb_gt in E. now apply Qclt_le_weak.
Qed.

Lemma Qcmin_le_Qcmax (x y : Qc) : Qcmin x y <= Qcmax x y.
Proof.
  destruct (Qcmin_cases x y) as [[-> H]|[-> H]], (Qcmax_cases x y) as [[-> H']|[-> H']];
    try assumption; apply Qcle_refl.
Qed.

Lemma Qcmin_comm (x y : Qc) : Qcmin x y = Qcmin y x.
Proof.
  destruct (Qcmin_cases x y) as [[-> H]|[-> H]], (Qcmin_cases y x) as [[-> H']|[-> H']];
    try reflexivity; now apply Qcle_antisym.
Qed.

Lemma Qcmax_comm (x y : Qc) : Qcmax x y = Qcmax y x.
Proof.
  destruct (Qcmax_cases x y) as [[-> H]|[-> H]], (Qcmax_cases y x) as [[-> H']|[-> H']];
    try reflexivity; now apply Qcle_antisym.
Qed.

(** Every value lies between the smallest and the largest order
    statistic. *)
Lemma between_extremes (s : Series) (x : Qc) :
  In x s ->
  nth 0 (np.sort s) 0 <= x /\ x <= nth (length s - 1) (np.sort s) 0.
Proof.
  intros Hx.
  assert (Hin : In x (np.sort s))
    by (eapply Permutation_in; [apply Permutation_sym, sort_permutation|exact Hx]).
  destruct (In_nth _ _ 0 Hin) as [i [Hi <-]]. rewrite sort_length in Hi.
  split; apply sort_nth_le; lia.
Qed.

Lemma one_minus_valid (p : Qc) : 0 < p -> p <= 1 -> 0 <= 1 - p /\ 1 - p <= 1.
Proof.
  unfold Qcle, Qclt. rewrite this_minus.
  change (this 0) with 0%Q. change (this 1) with 1%Q. intros; split; lra.
Qed.

End WinsorizerMoreFacts.

Section WinsorizerMoreProperties.

Import pd.

(** X6.  [winsorize_series] fails exactly for p above 1: for every p <= 1 it
    returns a Series of the length of its input, and for p > 1 the first
    quantile call rejects p with a ValueError and nothing is clipped. *)
Theorem winsorize_fails_only_above_one (s : Series) (p : Qc) :
  (p <= 1 -> exists s', winsorize s p = Ok s' /\ length s' = length s) /\
  (1 < p ->
   winsorize_series s p = ([call_quantile p], Err Percentile_out_of_range)).
Proof.
  split.
  - intros Hp. destruct (winsorize_shape s Hp) as [[H _]|[_ [_ H]]].
    + exists s. now split.
    + eexists. split; [exact H|apply length_map].
  - intros Hp. unfold winsorize_series.
    assert (E0 : Qcleb p 0 = false).
    { apply Qcleb_gt. apply Qclt_trans with 1; [reflexivity|exact Hp]. }
    assert (E1 : np.valid_percentile p = false).
    { unfold np.valid_percentile.
      assert (E : Qcleb p 1 = false) by now apply Qcleb_gt.
      rewrite E. apply andb_false_r. }
    rewrite E0. unfold quantile, tbind. rewrite E1. reflexivity.
Qed.

Lemma winsorize_fails_only_above_one_witness :
  (exists s', winsorize five_values (frac 1 10) = Ok s'
              /\ length s' = length five_values) /\
  winsorize_series five_values (frac 3 2)
  = ([call_quantile (frac 3 2)], Err Percentile_out_of_range).
Proof.
  destruct (winsorize_fails_only_above_one five_values (frac 1 10)) as [H _].
  destruct (winsorize_fails_only_above_one five_values (frac 3 2)) as [_ H'].
  split.
  - apply H. vm_compute. discriminate.
  - apply H'. vm_compute. reflexivity.
Defined.

(** The values of the result lie between values of the input. *)
Lemma winsorize_values_between (s s' : Series) (p : Qc) :
  p <= 1 -> winsorize s p = Ok s' ->
  forall y, In y s' -> exists x1 x2, In x1 s /\ In x2 s /\ x1 <= y /\ y <= x2.
Proof.
  intros Hp H. destruct (winsorize_shape s Hp) as [[H' _]|[Hpos [Hne H']]];
    rewrite H' in H; injection H as <-.
  - intros y Hy. exists y, y. repeat split; try assumption; apply Qcle_refl.
  - set (lo := np.linear_quantile s p) in *.
    set (hi := np.linear_quantile s (1 - p)) in *.
    assert (Hn : (1 <= length s)%nat) by (destruct s; [congruence|simpl; lia]).
    destruct (one_minus_valid Hpos Hp) as [Hq0 Hq1].
    destruct (@linear_quantile_between s p Hne (Qclt_le_weak _ _ Hpos) Hp) as [Llo Ulo].
    destruct (@linear_quantile_between s (1 - p) Hne Hq0 Hq1) as [Lhi Uhi].
    fold lo in Llo, Ulo. fold hi in Lhi, Uhi.
    set (m := nth 0 (np.sort s) 0) in *.
    set (M := nth (length s - 1) (np.sort s) 0) in *.
    assert (HL : m <= Qcmin lo hi /\ Qcmin lo hi <= M)
      by (destruct (Qcmin_cases lo hi) as [[-> _]|[-> _]]; now split).
    assert (HU : m <= Qcmax lo hi /\ Qcmax lo hi <= M)
      by (destruct (Qcmax_cases lo hi) as [[-> _]|[-> _]]; now split).
    intros y Hy. apply in_map_iff in Hy. destruct Hy as [x [<- Hx]].
    exists m, M.
    split; [apply sort_nth_In; lia|]. split; [apply sort_nth_In; lia|].
    destruct (between_extremes s x Hx) as [Hmx HxM]. fold m in Hmx. fold M in HxM.
    destruct HL as [HL1 HL2], HU as [HU1 HU2].
    unfold clip_between, clip_above, clip_below.
    case_Qcltb x (Qcmin lo hi);
      match goal with
      | |- context [Qcltb ?a ?b] => case_Qcltb a b
      end; split; assumption.
Qed.

(** X7.  For p <= 1, winsorizing creates no value outside the range of the
    input, every output value lying between two input values, and keeps the
    order of the observations: where one input value is at most another, so
    are the output values at the same positions (equal inputs stay
    equal). *)
Theorem winsorize_stays_in_range_and_keeps_order (s s' : Series) (p : Qc) :
  p <= 1 -> winsorize s p = Ok s' ->
  (forall y, In y s' -> exists x1 x2, In x1 s /\ In x2 s /\ x1 <= y /\ y <= x2) /\
  (forall i j, (i < length s)%nat -> (j < length s)%nat ->
               nth i s 0 <= nth j s 0 -> nth i s' 0 <= nth j s' 0).
Proof.
  intros Hp H. split; [exact (@winsorize_values_between s s' p Hp H)|].
  destruct (winsorize_shape s Hp) as [[H' _]|[Hpos [Hne H']]];
    rewrite H' in H; injection H as <-; [trivial|].
  intros i j Hi Hj Hij.
  set (f := clip_between _ _).
  rewrite !(nth_indep _ 0 (f 0)) by now rewrite length_map.
  rewrite !map_nth. now apply clip_between_monotone.
Qed.

Lemma winsorize_stays_in_range_and_keeps_order_witness :
  exists s',
    winsorize five_values (frac 1 10) = Ok s' /\
    forall y, In y s' ->
              exists x1 x2, In x1 five_values /\ In x2 five_values /\ x1 <= y /\ y <= x2.
Proof.
  destruct (winsorize five_values (frac 1 10)) as [s'|e] eqn:E;
    [|vm_compute in E; discriminate E].
  exists s'. split; [reflexivity|].
  apply (@winsorize_stays_in_range_and_keeps_order five_values s' (frac 1 10)).
  - vm_compute. discriminate.
  - exact E.
Defined.

(** X8.  For 0 < p < 1 the proportions p and 1 - p give the same result:
    the two quantiles change places and [clip] puts its thresholds in
    order. *)
Theorem winsorize_p_and_one_minus_p_agree (s : Series) (p : Qc) :
  0 < p -> p < 1 -> winsorize s p = winsorize s (1 - p).
Proof.
  intros H0 H1.
  assert (H1' : p <= 1) by now apply Qclt_le_weak.
  assert (Hq0 : 0 < 1 - p).
  { revert H1. unfold Qclt. rewrite this_minus.
    change (this 0) with 0%Q. change (this 1) with 1%Q. lra. }
  assert (Hq1 : 1 - p <= 1) by (apply one_minus_valid; assumption).
  destruct s as [|x s].
  - rewrite !winsorize_empty; try assumption; try reflexivity;
      now apply Qclt_le_weak.
  - rewrite !winsorize_clips by (assumption || discriminate).
    replace (1 - (1 - p)) with p by ring.
    now rewrite Qcmin_comm, Qcmax_comm.
Qed.

Lemma winsorize_p_and_one_minus_p_agree_witness :
  winsorize five_values (frac 1 10) = winsorize five_values (1 - frac 1 10).
Proof.
  apply winsorize_p_and_one_minus_p_agree; vm_compute; reflexivity.
Defined.

(** X9.  Winsorizing commutes with reordering: for p <= 1 the two
    thresholds depend on the values only, so a sample and a rearrangement of
    it are clipped by the same non-decreasing map, and the results are
    rearrangements of each other. *)
Theorem winsorize_commutes_with_reordering (s s' : Series) (p : Qc) :
  p <= 1 -> Permutation s s' ->
  exists f : Qc -> Qc,
    (forall x y, x <= y -> f x <= f y) /\
    winsorize s p = Ok (map f s) /\
    winsorize s' p = Ok (map f s') /\
    Permutation (map f s) (map f s').
Proof.
  intros Hp Hperm.
  destruct (winsorize_shape s Hp) as [[H Hc]|[Hpos [Hne H]]].
  - exists (fun x => x). rewrite !map_id. repeat split; try assumption.
    + trivial.
    + destruct Hc as [Hle| ->].
      * unfold winsorize, winsorize_series. apply Qcleb_le in Hle. now rewrite Hle.
      * apply Permutation_nil in Hperm. now subst.
  - exists (clip_between
              (Qcmin (np.linear_quantile s p) (np.linear_quantile s (1 - p)))
              (Qcmax (np.linear_quantile s p) (np.linear_quantile s (1 - p)))).
    split; [intros x y; apply clip_between_monotone|].
    split; [exact H|]. split; [|now apply Permutation_map].
    assert (Hne' : s' <> []).
    { intros ->. apply Permutation_sym, Permutation_nil in Hperm. congruence. }
    rewrite winsorize_clips by assumption.
    now rewrite <- !(linear_quantile_of_permutation _ Hperm).
Qed.

Lemma winsorize_commutes_with_reordering_witness :
  exists f : Qc -> Qc,
    winsorize five_values (frac 1 10) = Ok (map f five_values) /\
    winsorize (rev five_values) (frac 1 10) = Ok (map f (rev five_values)).
Proof.
  destruct (@winsorize_commutes_with_reordering five_values (rev five_values)
              (frac 1 10)) as [f [_ [H1 [H2 _]]]].
  - vm_compute. discriminate.
  - apply Permutation_rev.
  - exists f. split; assumption.
Defined.

End WinsorizerMoreProperties.

(** ** Bootstrap Estimator: bounds and failures *)

Section BootstrapMoreFacts.

Variable G : rnd.BitGenerator.

Lemma this_half (alpha : Qc) : (this (alpha / Qc_of_Z 2) == this alpha * (1 # 2))%Q.
Proof.
  unfold Qcdiv, Qcmult, Qcinv, Qc_of_Z. rewrite !this_Q2Qc, !Qred_correct.
  reflexivity.
Qed.

Lemma valid_one_minus (x : Qc) : np.valid_percentile (1 - x) = np.valid_percentile x.
Proof.
  apply eq_true_iff_eq. rewrite !valid_percentile_iff.
  unfold Qcle. rewrite this_minus. change (this 0) with 0%Q. change (this 1) with 1%Q.
  split; intros [H1 H2]; split; lra.
Qed.

Lemma half_alpha_valid_iff (alpha : Qc) :
  np.valid_percentile (alpha / Qc_of_Z 2) = true <-> 0 <= alpha /\ alpha <= Qc_of_Z 2.
Proof.
  rewrite valid_percentile_iff. unfold Qcle. rewrite this_half, this_Qc_of_Z.
  change (this 0) with 0%Q. change (this 1) with 1%Q. change (inject_Z 2) with 2%Q.
  split; intros [H1 H2]; split; lra.
Qed.

(** The three outcomes of the percentile interval. *)
Lemma percentile_interval_cases (lifts : list Qc) (alpha : Qc) :
  percentile_interval lifts alpha
  = if np.valid_percentile (alpha / Qc_of_Z 2) then
      match lifts with
      | [] => Err Quantile_of_empty_array
      | _ :: _ => Ok (np.linear_quantile lifts (alpha / Qc_of_Z 2),
                      np.linear_quantile lifts (1 - alpha / Qc_of_Z 2))
      end
    else Err Percentile_out_of_range.
Proof.
  unfold percentile_interval, np.quantile. rewrite valid_one_minus.
  destruct (np.valid_percentile (alpha / Qc_of_Z 2)); cbn [negb bind]; [|reflexivity].
  destruct lifts; reflexivity.
Qed.

(** Where the interval exists its ends are ordered and lie within the
    values. *)
Lemma percentile_interval_ordered (lifts : list Qc) (alpha lo hi : Qc) :
  alpha <= 1 -> percentile_interval lifts alpha = Ok (lo, hi) ->
  lo <= hi /\
  exists m M, In m lifts /\ In M lifts /\ m <= lo /\ hi <= M.
Proof.
  intros H1 H. rewrite percentile_interval_cases in H.
  destruct (np.valid_percentile (alpha / Qc_of_Z 2)) eqn:V; [|discriminate H].
  destruct lifts as [|x l] eqn:El; [discriminate H|]. rewrite <- El in *.
  assert (Hne : lifts <> []) by (rewrite El; discriminate).
  injection H as <- <-.
  apply valid_percentile_iff in V. destruct V as [V0 V1].
  assert (V' : np.valid_percentile (1 - alpha / Qc_of_Z 2) = true)
    by (rewrite valid_one_minus; now apply valid_percentile_iff).
  apply valid_percentile_iff in V'. destruct V' as [V0' V1'].
  assert (Hq : alpha / Qc_of_Z 2 <= 1 - alpha / Qc_of_Z 2).
  { revert H1. unfold Qcle. rewrite this_minus, this_half.
    change (this 1) with 1%Q. lra. }
  split; [now apply linear_quantile_monotone|].
  exists (nth 0 (np.sort lifts) 0), (nth (length lifts - 1) (np.sort lifts) 0).
  assert (Hn : (1 <= length lifts)%nat) by (rewrite El; simpl; lia).
  split; [apply sort_nth_In; lia|]. split; [apply sort_nth_In; lia|].
  split; now apply linear_quantile_between.
Qed.

(** A resample holds values of the sample, or the filler 0. *)
Lemma choice_values (P : Qc -> Prop) (a : list Qc) (n : nat) :
  P 0 -> (forall x, In x a -> P x) ->
  forall (rng : rnd.state G) (x : Qc), In x (fst (rnd.choice G rng a n)) -> P x.
Proof.
  intros P0 Pa. induction n as [|n IH]; intros rng x; simpl; [tauto|].
  destruct (rnd.integers G rng (length a)) as [i rng1].
  specialize (IH rng1). destruct (rnd.choice G rng1 a n) as [rest rng2].
  simpl in *. intros [<-|Hx]; [|now apply IH].
  destruct (Nat.lt_ge_cases i (length a)) as [Hi|Hi].
  - apply Pa, nth_In, Hi.
  - now rewrite nth_overflow.
Qed.

Lemma resample_pairs_values (P : Qc -> Prop) (a b : list Qc) (n : nat) :
  P 0 -> (forall x, In x a -> P x) ->
  forall (rng : rnd.state G) (ab : list Qc * list Qc),
    In ab (resample_pairs G rng a b n) -> forall x, In x (fst ab) -> P x.
Proof.
  intros P0 Pa. induction n as [|n IH]; intros rng ab; simpl; [tauto|].
  assert (Ha := @choice_values P a (length a) P0 Pa rng).
  destruct (rnd.choice G rng a (length a)) as [a_s rng1].
  destruct (rnd.choice G rng1 b (length b)) as [b_s rng2].
  simpl in *. intros [<-|H]; [exact Ha|exact (IH rng2 ab H)].
Qed.

Lemma resample_pairs_values_snd (P : Qc -> Prop) (a b : list Qc) (n : nat) :
  P 0 -> (forall x, In x b -> P x) ->
  forall (rng : rnd.state G) (ab : list Qc * list Qc),
    In ab (resample_pairs G rng a b n) -> forall x, In x (snd ab) -> P x.
Proof.
  intros P0 Pb. induction n as [|n IH]; intros rng ab; simpl; [tauto|].
  destruct (rnd.choice G rng a (length a)) as [a_s rng1].
  assert (Hb := @choice_values P b (length b) P0 Pb rng1).
  destruct (rnd.choice G rng1 b (length b)) as [b_s rng2].
  simpl in *. intros [<-|H]; [exact Hb|exact (IH rng2 ab H)].
Qed.

Lemma sum_of_zeros (l : list Qc) : (forall x, In x l -> x = 0) -> np.sum l = 0.
Proof.
  induction l as [|x l IH]; intros H; simpl; [reflexivity|].
  rewrite (H x) by now left. rewrite IH by (intros y Hy; apply H; now right).
  ring.
Qed.

(** A resample of zeros has no lift. *)
Lemma lift_entry_of_zeros (ab : list Qc * list Qc) :
  (forall x, In x (fst ab) -> x = 0) -> lift_entry ab = NaN.
Proof.
  intros H. unfold lift_entry. destruct (fst ab) as [|x l] eqn:E.
  - simpl. now destruct (np.mean (snd ab)).
  - unfold np.mean at 1. rewrite (sum_of_zeros _ H).
    replace (0 / Qc_of_nat (length (x :: l))) with 0 by (unfold Qcdiv; ring).
    reflexivity.
Qed.

Lemma not_nan_all_nan (pairs : list (list Qc * list Qc)) :
  (forall ab, In ab pairs -> lift_entry ab = NaN) ->
  rnd.not_nan (map lift_entry pairs) = [].
Proof.
  induction pairs as [|ab pairs IH]; intros H; [reflexivity|].
  unfold rnd.not_nan in *. cbn [map flat_map].
  rewrite (H ab) by now left. simpl. apply IH. intros ab' H'. apply H. now right.
Qed.

End BootstrapMoreFacts.

Section BootstrapMoreProperties.

(** X10.  For alpha <= 1, whenever the estimator returns bounds the lower
    one is at most the upper one. *)
Theorem bootstrap_bounds_are_ordered
    (G : rnd.BitGenerator) (w : rnd.World) (a b : Series) (n_boot : Z)
    (alpha : Qc) (seed : option Z) (lo hi : Qc) :
  alpha <= 1 ->
  bootstrap_lift_ci G w a b n_boot alpha seed = Ok (lo, hi) ->
  lo <= hi.
Proof.
  intros H1 H.
  destruct (rnd.default_rng G seed w) as [rng|e] eqn:Erng.
  - rewrite (@bootstrap_lift_ci_unfolded G w a b n_boot alpha seed rng Erng) in H.
    destruct (n_boot <? 0)%Z; [discriminate H|].
    exact (proj1 (percentile_interval_ordered _ H1 H)).
  - unfold bootstrap_lift_ci in H. rewrite Erng in H. discriminate H.
Qed.

Lemma bootstrap_bounds_are_ordered_witness :
  exists lo hi,
    bootstrap_lift_ci lcg zero_world scenario_A scenario_B 20 default_alpha default_seed
    = Ok (lo, hi) /\ lo <= hi.
Proof.
  destruct (bootstrap_lift_ci lcg zero_world scenario_A scenario_B 20
              default_alpha default_seed) as [[lo hi]|e] eqn:E;
    [|vm_compute in E; discriminate E].
  exists lo, hi. split; [reflexivity|].
  apply (@bootstrap_bounds_are_ordered lcg zero_world scenario_A scenario_B 20
           default_alpha default_seed lo hi).
  - vm_compute. discriminate.
  - exact E.
Defined.

(** X11.  On non-empty samples and for alpha <= 1, the bounds returned lie
    within the retained lift values: some retained value is at most the
    lower bound and some retained value is at least the upper bound. *)
Theorem bootstrap_bounds_lie_within_the_lifts
    (G : rnd.BitGenerator) (w : rnd.World) (a b : Series) (n_boot : Z)
    (alpha : Qc) (seed : option Z) (rng : rnd.state G) (lo hi : Qc) :
  a <> [] -> b <> [] -> alpha <= 1 ->
  rnd.default_rng G seed w = Ok rng ->
  bootstrap_lift_ci G w a b n_boot alpha seed = Ok (lo, hi) ->
  exists m M,
    In m (retained_lifts (resample_pairs G rng a b (Z.to_nat n_boot))) /\
    In M (retained_lifts (resample_pairs G rng a b (Z.to_nat n_boot))) /\
    m <= lo /\ hi <= M.
Proof.
  intros Ha Hb H1 Hrng H.
  assert (Hn : (0 <= n_boot)%Z).
  { rewrite (@bootstrap_lift_ci_unfolded G w a b n_boot alpha seed rng Hrng) in H.
    destruct (n_boot <? 0)%Z eqn:E; [discriminate H|]. now apply Z.ltb_ge. }
  rewrite (@bootstrap_lift_ci_retained G w a b n_boot alpha seed rng) in H
    by assumption.
  exact (proj2 (percentile_interval_ordered _ H1 H)).
Qed.

Lemma bootstrap_bounds_lie_within_the_lifts_witness :
  exists lo hi m M,
    bootstrap_lift_ci lcg zero_world scenario_A scenario_B 20 default_alpha default_seed
    = Ok (lo, hi) /\ m <= lo /\ hi <= M.
Proof.
  destruct (bootstrap_lift_ci lcg zero_world scenario_A scenario_B 20
              default_alpha default_seed) as [[lo hi]|e] eqn:E;
    [|vm_compute in E; discriminate E].
  destruct (@bootstrap_bounds_lie_within_the_lifts lcg zero_world scenario_A
              scenario_B 20 default_alpha default_seed 42%N lo hi)
    as [m [M [_ [_ [H1 H2]]]]].
  - discriminate.
  - discriminate.
  - vm_compute. discriminate.
  - reflexivity.
  - exact E.
  - exists lo, hi, m, M. repeat split; assumption.
Defined.

(** X12.  Without resamples there are no bounds: once the generator is
    made, a negative n_boot fails with the ValueError of [np.empty], and
    n_boot = 0, for alpha in [0, 2], with the IndexError of the quantile of
    an empty array. *)
Theorem bootstrap_needs_a_positive_count
    (G : rnd.BitGenerator) (w : rnd.World) (a b : Series) (n_boot : Z)
    (alpha : Qc) (seed : option Z) (rng : rnd.state G) :
  rnd.default_rng G seed w = Ok rng ->
  ((n_boot < 0)%Z ->
   bootstrap_lift_ci G w a b n_boot alpha seed = Err Negative_dimensions) /\
  (n_boot = 0%Z -> 0 <= alpha -> alpha <= Qc_of_Z 2 ->
   bootstrap_lift_ci G w a b n_boot alpha seed = Err Quantile_of_empty_array).
Proof.
  intros Hrng.
  rewrite (@bootstrap_lift_ci_unfolded G w a b n_boot alpha seed rng Hrng). split.
  - intros Hn. apply Z.ltb_lt in Hn. now rewrite Hn.
  - intros -> H0 H2. cbn. rewrite percentile_interval_cases.
    assert (V : np.valid_percentile (alpha / Qc_of_Z 2) = true)
      by now apply half_alpha_valid_iff.
    now rewrite V.
Qed.

Lemma bootstrap_needs_a_positive_count_witness :
  bootstrap_lift_ci lcg zero_world scenario_A scenario_B (-1) default_alpha default_seed
  = Err Negative_dimensions /\
  bootstrap_lift_ci lcg zero_world scenario_A scenario_B 0 default_alpha default_seed
  = Err Quantile_of_empty_array.
Proof.
  split.
  - apply (proj1 (@bootstrap_needs_a_positive_count lcg zero_world scenario_A
                    scenario_B (-1) default_alpha default_seed 42%N eq_refl)). lia.
  - apply (proj2 (@bootstrap_needs_a_positive_count lcg zero_world scenario_A
                    scenario_B 0 default_alpha default_seed 42%N eq_refl)).
    + reflexivity.
    + vm_compute. discriminate.
    + vm_compute. discriminate.
Defined.

(** X13.  Once the generator is made and for n_boot >= 0, the estimator
    raises the out-of-range ValueError of the quantile exactly when alpha is
    negative or above 2; an alpha between 1 and 2 is accepted. *)
Theorem bootstrap_rejects_alpha_outside_0_2
    (G : rnd.BitGenerator) (w : rnd.World) (a b : Series) (n_boot : Z)
    (alpha : Qc) (seed : option Z) (rng : rnd.state G) :
  rnd.default_rng G seed w = Ok rng -> (0 <= n_boot)%Z ->
  (bootstrap_lift_ci G w a b n_boot alpha seed = Err Percentile_out_of_range <->
   alpha < 0 \/ Qc_of_Z 2 < alpha).
Proof.
  intros Hrng Hn.
  rewrite (@bootstrap_lift_ci_unfolded G w a b n_boot alpha seed rng Hrng).
  assert (E : (n_boot <? 0)%Z = false) by now apply Z.ltb_ge.
  rewrite E, percentile_interval_cases.
  destruct (np.valid_percentile (alpha / Qc_of_Z 2)) eqn:V.
  - apply half_alpha_valid_iff in V. destruct V as [V0 V2]. split.
    + intros H. destruct (rnd.not_nan _); discriminate H.
    + intros [H|H]; exfalso; [exact (Qcle_not_lt _ _ V0 H)|exact (Qcle_not_lt _ _ V2 H)].
  - split; [|reflexivity]. intros _.
    destruct (Qclt_le_dec alpha 0) as [H|H0]; [now left|].
    destruct (Qclt_le_dec (Qc_of_Z 2) alpha) as [H|H2]; [now right|].
    assert (V' : np.valid_percentile (alpha / Qc_of_Z 2) = true)
      by now apply half_alpha_valid_iff.
    congruence.
Qed.

Lemma bootstrap_rejects_alpha_outside_0_2_witness :
  bootstrap_lift_ci lcg zero_world scenario_A scenario_B 20 (Qc_of_Z 5) default_seed
  = Err Percentile_out_of_range.
Proof.
  apply (proj2 (@bootstrap_rejects_alpha_outside_0_2 lcg zero_world scenario_A
                  scenario_B 20 (Qc_of_Z 5) default_seed 42%N eq_refl
                  ltac:(lia))).
  right. vm_compute. reflexivity.
Defined.

(** X14.  When every value of sample A is 0 (or A is empty), every
    iteration is excluded, whatever the generator draws, and the estimator
    fails with the IndexError of the quantile of an empty array, for every
    n_boot >= 0 and alpha in [0, 2]. *)
Theorem bootstrap_fails_on_a_zero_control
    (G : rnd.BitGenerator) (w : rnd.World) (a b : Series) (n_boot : Z)
    (alpha : Qc) (seed : option Z) (rng : rnd.state G) :
  rnd.default_rng G seed w = Ok rng -> (0 <= n_boot)%Z ->
  0 <= alpha -> alpha <= Qc_of_Z 2 ->
  (forall x, In x a -> x = 0) ->
  bootstrap_lift_ci G w a b n_boot alpha seed = Err Quantile_of_empty_array.
Proof.
  intros Hrng Hn H0 H2 Hzero.
  rewrite (@bootstrap_lift_ci_unfolded G w a b n_boot alpha seed rng Hrng).
  assert (E : (n_boot <? 0)%Z = false) by now apply Z.ltb_ge.
  rewrite E, not_nan_all_nan, percentile_interval_cases.
  - assert (V : np.valid_percentile (alpha / Qc_of_Z 2) = true)
      by now apply half_alpha_valid_iff.
    now rewrite V.
  - intros ab Hab. apply lift_entry_of_zeros.
    apply (@resample_pairs_values G (fun x => x = 0) a b (Z.to_nat n_boot)
             eq_refl Hzero rng ab Hab).
Qed.

Lemma bootstrap_fails_on_a_zero_control_witness :
  bootstrap_lift_ci lcg zero_world (Qc_of_ints [0; 0; 0]%Z) scenario_B 20
                    default_alpha default_seed
  = Err Quantile_of_empty_array.
Proof.
  apply (@bootstrap_fails_on_a_zero_control lcg zero_world (Qc_of_ints [0; 0; 0]%Z)
           scenario_B 20 default_alpha default_seed 42%N).
  - reflexivity.
  - lia.
  - vm_compute. discriminate.
  - vm_compute. discriminate.
  - intros x Hx. simpl in Hx.
    repeat (destruct Hx as [<-|Hx]; [reflexivity|]). contradiction.
Defined.

End BootstrapMoreProperties.

(** ** Hypothesis Test Engine: symmetry, zero variance, order of the
    observations *)

Section WelchMoreFacts.

Import st.

Lemma fplus_comm (x y : float) : fplus x y = fplus y x.
Proof. destruct x, y; simpl; try reflexivity. f_equal. ring. Qed.

Lemma standard_error_sq_comm (a b : list Qc) :
  standard_error_sq a b = standard_error_sq b a.
Proof. unfold standard_error_sq. apply fplus_comm. Qed.

Lemma welch_df_comm (a b : list Qc) : welch_df a b = welch_df b a.
Proof.
  unfold welch_df.
  rewrite (fplus_comm (var_over_n a) (var_over_n b)).
  now rewrite (fplus_comm (fdiv (fmult (var_over_n a) (var_over_n a)) _)).
Qed.

Lemma Q2R_Qcopp (x : Qc) : Q2R (- x)%Qc = (- Q2R x)%R.
Proof. unfold Qcopp. rewrite Q2R_Q2Qc. apply Q2R_opp. Qed.

Lemma Qcopp_eq0 (d : Qc) : Qceqb (- d) 0 = Qceqb d 0.
Proof.
  apply eq_true_iff_eq. rewrite !Qceqb_eq. split; intros H.
  - rewrite <- (Qcopp_involutive d), H. reflexivity.
  - rewrite H. reflexivity.
Qed.

Lemma Qcopp_neg (d : Qc) : d <> 0 -> Qcltb (- d) 0 = negb (Qcltb d 0).
Proof.
  intros Hd. apply eq_true_iff_eq. rewrite negb_true_iff, Qcltb_lt, Qcltb_ge.
  unfold Qcle, Qclt. rewrite this_opp. change (this 0) with 0%Q.
  split; intros H; [lra|].
  assert (Hne : ~ (this d == 0)%Q).
  { intros E. apply Hd. now apply Qc_is_canon. }
  lra.
Qed.

Lemma divide_by_sqrt_opp (d : Qc) (v : float) :
  divide_by_sqrt (Fin (- d)) v = xopp (divide_by_sqrt (Fin d) v).
Proof.
  destruct v as [|v]; [reflexivity|]. unfold divide_by_sqrt.
  destruct (Qceqb v 0).
  - rewrite Qcopp_eq0. destruct (Qceqb d 0) eqn:E; [reflexivity|].
    cbn [xopp]. f_equal. apply Qcopp_neg. now apply Qceqb_neq.
  - cbn [xopp]. f_equal. rewrite Q2R_Qcopp. unfold Rdiv. ring.
Qed.

(** Exchanging the samples turns the statistic into its opposite. *)
Lemma welch_statistic_swap (a b : list Qc) :
  welch_statistic b a = xopp (welch_statistic a b).
Proof.
  unfold welch_statistic. rewrite (standard_error_sq_comm b a).
  destruct (np.mean a) as [|ma], (np.mean b) as [|mb]; try reflexivity.
  simpl fsub. replace (mb - ma) with (- (ma - mb)) by ring.
  apply divide_by_sqrt_opp.
Qed.

Lemma two_sided_pvalue_opp (t_sf : R -> R -> R) (df : Qc) (t : xreal) :
  two_sided_pvalue t_sf df (xopp t) = two_sided_pvalue t_sf df t.
Proof. destruct t; simpl; try reflexivity. now rewrite Rabs_Ropp. Qed.

(** The sum, and with it every moment, does not depend on the order of the
    observations. *)
Lemma sum_permutation (l l' : list Qc) : Permutation l l' -> np.sum l = np.sum l'.
Proof.
  induction 1 as [|x l l' _ IH|x y l|l l' l'' _ IH1 _ IH2]; simpl.
  - reflexivity.
  - now rewrite IH.
  - ring.
  - now rewrite IH1.
Qed.

Lemma mean_permutation (l l' : list Qc) : Permutation l l' -> np.mean l = np.mean l'.
Proof.
  intros Hp. unfold np.mean.
  destruct l as [|x l], l' as [|x' l'].
  - reflexivity.
  - apply Permutation_nil in Hp. discriminate Hp.
  - apply Permutation_sym, Permutation_nil in Hp. discriminate Hp.
  - now rewrite (sum_permutation Hp), (Permutation_length Hp).
Qed.

Lemma var_over_n_permutation (l l' : list Qc) :
  Permutation l l' -> var_over_n l = var_over_n l'.
Proof.
  intros Hp. unfold var_over_n, var_ddof1.
  rewrite (mean_permutation Hp), (Permutation_length Hp).
  destruct (np.mean l') as [|m]; [reflexivity|].
  unfold sum_sq_dev.
  now rewrite (sum_permutation (Permutation_map (fun x => (x - m) * (x - m)) Hp)).
Qed.

Lemma ttest_ind_welch_permutation (t_sf : R -> R -> R) (a a' b b' : Series) :
  Permutation a a' -> Permutation b b' ->
  ttest_ind_welch t_sf a' b' = ttest_ind_welch t_sf a b.
Proof.
  intros Ha Hb.
  unfold ttest_ind_welch, welch_statistic, standard_error_sq, welch_df.
  now rewrite (mean_permutation Ha), (mean_permutation Hb),
    (var_over_n_permutation Ha), (var_over_n_permutation Hb),
    (Permutation_length Ha), (Permutation_length Hb).
Qed.

End WelchMoreFacts.

Section WelchMoreProperties.

Import st.

(** X15.  Exchanging the two samples turns the Welch statistic into its
    opposite (NaN stays NaN, an infinity changes sign) and leaves the
    p-value as it is. *)
Theorem welch_t_test_of_exchanged_samples (t_sf : R -> R -> R) (a b : Series) :
  welch_t_test t_sf b a
  = ('(t, p) <- welch_t_test t_sf a b ;; Ok (xopp t, p)).
Proof.
  unfold welch_t_test, ttest_ind_welch. cbn [bind].
  now rewrite welch_statistic_swap, welch_df_comm, two_sided_pvalue_opp.
Qed.



(** X17.  The Welch test does not depend on the order of the observations
    within the samples. *)
Theorem welch_t_test_ignores_order (t_sf : R -> R -> R) (a a' b b' : Series) :
  Permutation a a' -> Permutation b b' ->
  welch_t_test t_sf a' b' = welch_t_test t_sf a b.
Proof.
  intros Ha Hb. unfold welch_t_test.
  now rewrite (ttest_ind_welch_permutation t_sf Ha Hb).
Qed.

Lemma welch_t_test_ignores_order_witness :
  welch_t_test sample_sf (rev scenario_A) (rev scenario_B)
  = welch_t_test sample_sf scenario_A scenario_B.
Proof.
  apply welch_t_test_ignores_order; apply Permutation_rev.
Defined.

End WelchMoreProperties.

(** ** The analysis as a whole *)

Section AnalysisFacts.

Variable parse : string -> float.
Variable t_sf : R -> R -> R.
Variable mannwhitneyu : Series -> Series -> float * float.
Variable G : rnd.BitGenerator.

(** What a result record says about the run that made it. *)
Lemma analyze_ab_inversion (w : rnd.World) (df : pd.DataFrame) (g v : string)
    (winsor0 alpha0 : Qc) (n_boot : Z) (r : ABResult) :
  analyze_ab parse t_sf mannwhitneyu G w df g v winsor0 alpha0 n_boot = Ok r ->
  exists a b a1 b1,
    check_inputs parse df g v = Ok (a, b) /\
    winsorize_groups winsor0 a b = Ok (a1, b1) /\
    bootstrap_lift_ci G w a1 b1 n_boot alpha0 default_seed
    = Ok (ci_low r, ci_high r) /\
    st.ttest_ind_welch t_sf a1 b1 = (welch_t r, welch_p r) /\
    group_a_mean r = np.mean a1 /\ group_b_mean r = np.mean b1 /\
    group_a_n r = length a1 /\ group_b_n r = length b1 /\
    lift r = (if negb (feq0 (np.mean a1))
              then fdiv (fsub (np.mean b1) (np.mean a1)) (np.mean a1)
              else NaN) /\
    alpha r = alpha0 /\ winsor r = winsor0 /\
    metric r = v /\ value_col r = v /\ group_col r = g.
Proof.
  unfold analyze_ab. intros H.
  destruct (check_inputs parse df g v) as [[a b]|e] eqn:Ec; [|discriminate H].
  cbn [bind] in H.
  destruct (winsorize_groups winsor0 a b) as [[a1 b1]|e] eqn:Ew; [|discriminate H].
  cbn [bind] in H. unfold welch_t_test, mann_whitney in H.
  destruct (st.ttest_ind_welch t_sf a1 b1) as [t tp] eqn:Et.
  destruct (mannwhitneyu a1 b1) as [u up]. cbn [bind] in H.
  destruct (bootstrap_lift_ci G w a1 b1 n_boot alpha0 default_seed) as [[lo hi]|e]
    eqn:Eb; [|discriminate H].
  cbn [bind] in H. injection H as <-.
  exists a, b, a1, b1. cbn. repeat split; assumption || reflexivity.
Qed.

Lemma winsorize_above_one (s : Series) (p : Qc) :
  1 < p -> winsorize s p = Err Percentile_out_of_range.
Proof.
  intros Hp. unfold winsorize, winsorize_series.
  assert (E0 : Qcleb p 0 = false).
  { apply Qcleb_gt. apply Qclt_trans with 1; [reflexivity|exact Hp]. }
  assert (E1 : np.valid_percentile p = false).
  { unfold np.valid_percentile.
    assert (E : Qcleb p 1 = false) by now apply Qcleb_gt.
    rewrite E. apply andb_false_r. }
  rewrite E0. unfold pd.quantile, pd.tbind, pd.value. now rewrite E1.
Qed.

(** Winsorizing a rearranged sample gives a rearranged result. *)
Lemma winsorize_of_permutation (s s' r : Series) (p : Qc) :
  Permutation s s' -> winsorize s p = Ok r ->
  exists r', winsorize s' p = Ok r' /\ Permutation r r'.
Proof.
  intros Hperm H.
  destruct (Qclt_le_dec 1 p) as [Hgt|Hp].
  { rewrite winsorize_above_one in H by exact Hgt. discriminate H. }
  destruct (winsorize_shape s Hp) as [[H' Hc]|[Hpos [Hne H']]];
    rewrite H' in H; injection H as <-.
  - exists s'. split; [|exact Hperm]. destruct Hc as [Hle| ->].
    + unfold winsorize, winsorize_series. apply Qcleb_le in Hle. now rewrite Hle.
    + apply Permutation_nil in Hperm. subst. exact H'.
  - assert (Hne' : s' <> []).
    { intros ->. apply Permutation_sym, Permutation_nil in Hperm. congruence. }
    eexists. split; [now apply winsorize_clips|].
    rewrite <- !(linear_quantile_of_permutation _ Hperm).
    now apply Permutation_map.
Qed.

Lemma winsorize_groups_of_permutation (winsor0 : Qc) (a a' b b' a1 b1 : Series) :
  Permutation a a' -> Permutation b b' ->
  winsorize_groups winsor0 a b = Ok (a1, b1) ->
  exists a1' b1',
    winsorize_groups winsor0 a' b' = Ok (a1', b1') /\
    Permutation a1 a1' /\ Permutation b1 b1'.
Proof.
  intros Ha Hb. unfold winsorize_groups. destruct (Qcltb 0 winsor0).
  - destruct (winsorize a winsor0) as [ra|e] eqn:Ea; [|discriminate].
    destruct (winsorize b winsor0) as [rb|e] eqn:Eb; [|discriminate].
    cbn [bind]. intros H. injection H as <- <-.
    destruct (@winsorize_of_permutation _ _ _ _ Ha Ea) as [ra' [Ea' Pa]].
    destruct (@winsorize_of_permutation _ _ _ _ Hb Eb) as [rb' [Eb' Pb]].
    exists ra', rb'. rewrite Ea', Eb'. cbn [bind]. now repeat split.
  - intros H. injection H as <- <-. exists a', b'. now repeat split.
Qed.

(** The samples of a frame with its rows rearranged. *)
Lemma check_inputs_of_permutation (df df' : pd.DataFrame) (g v : string)
    (a b : Series) :
  pd.columns df' = pd.columns df -> Permutation (pd.rows df) (pd.rows df') ->
  check_inputs parse df g v = Ok (a, b) ->
  exists a' b',
    check_inputs parse df' g v = Ok (a', b') /\
    Permutation a a' /\ Permutation b b'.
Proof.
  intros Hcols Hperm H.
  destruct (@check_inputs_inversion _ _ _ _ _ _ H)
    as [la [lb [Hlt [Hlab [-> [-> [Hg [Hv Hgv]]]]]]]].
  assert (Hc := @cleaned_permutation parse df df' g v Hperm).
  exists (pd.loc (cleaned parse df' g v) la), (pd.loc (cleaned parse df' g v) lb).
  split; [|split; unfold pd.loc; now apply Permutation_map, Permutation_filter].
  apply check_inputs_two_labels; try assumption.
  - unfold pd.has_column. now rewrite Hcols.
  - unfold pd.has_column. now rewrite Hcols.
  - intros l. rewrite <- Hlab. split; apply Permutation_in.
    + apply Permutation_map. now apply Permutation_sym.
    + now apply Permutation_map.
Qed.

Lemma samples_not_empty (df : pd.DataFrame) (g v : string) (a b : Series) :
  check_inputs parse df g v = Ok (a, b) -> a <> [] /\ b <> [].
Proof.
  intros H.
  destruct (@check_inputs_inversion _ _ _ _ _ _ H) as [la [lb [_ [Hlab [-> [-> _]]]]]].
  assert (Hna : forall x, In x (map fst (cleaned parse df g v)) -> pd.isna x = false)
    by (intros x; apply cleaned_label_not_na).
  split; apply loc_not_empty; try (apply Hna); apply Hlab; auto.
Qed.

End AnalysisFacts.

Section AnalysisProperties.

(** X18.  Every result record of [analyze_ab] counts at least one
    observation in each group, carries two group means that are numbers,
    has NaN for the lift exactly when the mean of A is 0 and
    (mean_B - mean_A) / mean_A otherwise, has its interval bounds in order
    when alpha <= 1, and echoes alpha, the winsor proportion and the column
    names it was called with. *)
Theorem analysis_result_invariants
    (parse : string -> float) (t_sf : R -> R -> R)
    (mannwhitneyu : Series -> Series -> float * float) (G : rnd.BitGenerator)
    (w : rnd.World) (df : pd.DataFrame) (g v : string) (winsor0 alpha0 : Qc)
    (n_boot : Z) (r : ABResult) :
  analyze_ab parse t_sf mannwhitneyu G w df g v winsor0 alpha0 n_boot = Ok r ->
  (1 <= group_a_n r)%nat /\ (1 <= group_b_n r)%nat /\
  (exists ma mb,
      group_a_mean r = Fin ma /\ group_b_mean r = Fin mb /\
      lift r = if Qceqb ma 0 then NaN else Fin ((mb - ma) / ma)) /\
  (alpha0 <= 1 -> ci_low r <= ci_high r) /\
  alpha r = alpha0 /\ winsor r = winsor0 /\
  metric r = v /\ value_col r = v /\ group_col r = g.
Proof.
  intros H.
  destruct (@analyze_ab_inversion _ _ _ _ _ _ _ _ _ _ _ _ H)
    as [a [b [a1 [b1 [Hc [Hw [Hb [_ [Hma [Hmb [Hna [Hnb [Hl He]]]]]]]]]]]]].
  destruct (@samples_not_empty _ _ _ _ _ _ Hc) as [Ha0 Hb0].
  destruct (@winsorize_groups_length _ _ _ _ _ Hw) as [La Lb].
  assert (Ha1 : a1 <> []) by (intros E; rewrite E in La; destruct a; [congruence|discriminate La]).
  assert (Hb1 : b1 <> []) by (intros E; rewrite E in Lb; destruct b; [congruence|discriminate Lb]).
  split; [rewrite Hna; destruct a1; [congruence|simpl; lia]|].
  split; [rewrite Hnb; destruct b1; [congruence|simpl; lia]|].
  split.
  { exists (sample_mean a1), (sample_mean b1).
    rewrite Hma, Hmb, Hl, !mean_nonempty by assumption. cbn [feq0 fsub fdiv].
    repeat split. now destruct (Qceqb (sample_mean a1) 0). }
  split; [|exact He].
  intros H1.
  destruct (rnd.default_rng G default_seed w) as [rng|e] eqn:Erng.
  - rewrite (@bootstrap_lift_ci_unfolded G w a1 b1 n_boot alpha0 default_seed rng Erng)
      in Hb.
    destruct (n_boot <? 0)%Z; [discriminate Hb|].
    exact (proj1 (percentile_interval_ordered _ H1 Hb)).
  - unfold bootstrap_lift_ci in Hb. rewrite Erng in Hb. discriminate Hb.
Qed.

Lemma analysis_result_invariants_witness :
  exists r,
    analyze_ab parse_decimal sample_sf count_u lcg zero_world
               variant_first_frame "group" "revenue" 0 default_alpha 10
    = Ok r /\
    (1 <= group_a_n r)%nat /\ (1 <= group_b_n r)%nat /\ ci_low r <= ci_high r.
Proof.
  destruct (analyze_ab parse_decimal sample_sf count_u lcg zero_world
              variant_first_frame "group" "revenue" 0 default_alpha 10)
    as [r|e] eqn:E; [|exfalso].
  - destruct (@analysis_result_invariants _ _ _ _ _ _ _ _ _ _ _ _ E)
      as [H1 [H2 [_ [H3 _]]]].
    exists r. repeat split; try assumption. apply H3. vm_compute. discriminate.
  - assert (H : match analyze_ab parse_decimal sample_sf count_u lcg zero_world
                        variant_first_frame "group" "revenue" 0 default_alpha 10
                with Ok _ => true | Err _ => false end = true)
      by (vm_compute; reflexivity).
    rewrite E in H. discriminate H.
Defined.

(** X19.  The group means, the group counts, the lift and the Welch
    statistic and p-value do not depend on the order of the rows: two
    analyses of frames with the same rows in different orders, when both
    return a record, agree on these fields. *)
Theorem analysis_statistics_ignore_row_order
    (parse : string -> float) (t_sf : R -> R -> R)
    (mannwhitneyu : Series -> Series -> float * float) (G : rnd.BitGenerator)
    (w w' : rnd.World) (df df' : pd.DataFrame) (g v : string)
    (winsor0 alpha0 : Qc) (n_boot : Z) (r r' : ABResult) :
  pd.columns df' = pd.columns df -> Permutation (pd.rows df) (pd.rows df') ->
  analyze_ab parse t_sf mannwhitneyu G w df g v winsor0 alpha0 n_boot = Ok r ->
  analyze_ab parse t_sf mannwhitneyu G w' df' g v winsor0 alpha0 n_boot = Ok r' ->
  group_a_mean r' = group_a_mean r /\ group_b_mean r' = group_b_mean r /\
  group_a_n r' = group_a_n r /\ group_b_n r' = group_b_n r /\
  lift r' = lift r /\ welch_t r' = welch_t r /\ welch_p r' = welch_p r.
Proof.
  intros Hcols Hperm H H'.
  destruct (@analyze_ab_inversion _ _ _ _ _ _ _ _ _ _ _ _ H)
    as [a [b [a1 [b1 [Hc [Hw [_ [Ht [Hma [Hmb [Hna [Hnb [Hl _]]]]]]]]]]]]].
  destruct (@analyze_ab_inversion _ _ _ _ _ _ _ _ _ _ _ _ H')
    as [a' [b' [a1' [b1' [Hc' [Hw' [_ [Ht' [Hma' [Hmb' [Hna' [Hnb' [Hl' _]]]]]]]]]]]]].
  destruct (@check_inputs_of_permutation parse df df' g v a b Hcols Hperm Hc)
    as [a2 [b2 [Hc2 [Pa Pb]]]].
  rewrite Hc2 in Hc'. injection Hc' as <- <-.
  destruct (@winsorize_groups_of_permutation _ _ _ _ _ _ _ Pa Pb Hw) as [a3 [b3 [Hw3 [Pa1 Pb1]]]].
  rewrite Hw3 in Hw'. injection Hw' as <- <-.
  assert (Ema : np.mean a3 = np.mean a1)
    by (symmetry; now apply mean_permutation).
  assert (Emb : np.mean b3 = np.mean b1)
    by (symmetry; now apply mean_permutation).
  rewrite (ttest_ind_welch_permutation t_sf Pa1 Pb1), Ht in Ht'.
  injection Ht' as <- <-.
  rewrite Hma, Hmb, Hna, Hnb, Hl, Hma', Hmb', Hna', Hnb', Hl', Ema, Emb.
  rewrite (Permutation_length Pa1), (Permutation_length Pb1).
  repeat split; reflexivity.
Qed.

Lemma analysis_statistics_ignore_row_order_witness :
  exists r r',
    analyze_ab parse_decimal sample_sf count_u lcg zero_world
               variant_first_frame "group" "revenue" 0 default_alpha 10 = Ok r /\
    analyze_ab parse_decimal sample_sf count_u lcg zero_world
               control_first_frame "group" "revenue" 0 default_alpha 10 = Ok r' /\
    group_a_mean r' = group_a_mean r /\ welch_t r' = welch_t r.
Proof.
  destruct (analyze_ab parse_decimal sample_sf count_u lcg zero_world
              variant_first_frame "group" "revenue" 0 default_alpha 10)
    as [r|e] eqn:E.
  2:{ exfalso.
      assert (H : match analyze_ab parse_decimal sample_sf count_u lcg zero_world
                          variant_first_frame "group" "revenue" 0 default_alpha 10
                  with Ok _ => true | Err _ => false end = true)
        by (vm_compute; reflexivity).
      rewrite E in H. discriminate H. }
  destruct (analyze_ab parse_decimal sample_sf count_u lcg zero_world
              control_first_frame "group" "revenue" 0 default_alpha 10)
    as [r'|e] eqn:E'.
  2:{ exfalso.
      assert (H : match analyze_ab parse_decimal sample_sf count_u lcg zero_world
                          control_first_frame "group" "revenue" 0 default_alpha 10
                  with Ok _ => true | Err _ => false end = true)
        by (vm_compute; reflexivity).
      rewrite E' in H. discriminate H. }
  exists r, r'. split; [reflexivity|]. split; [reflexivity|].
  destruct (@analysis_statistics_ignore_row_order parse_decimal sample_sf count_u lcg
              zero_world zero_world variant_first_frame control_first_frame
              "group" "revenue" 0 default_alpha 10 r r')
    as [H1 [_ [_ [_ [_ [H2 _]]]]]].
  - reflexivity.
  - unfold control_first_frame, variant_first_frame, mkframe. cbn [pd.rows].
    apply Permutation_map, Permutation_rev.
  - exact E.
  - exact E'.
  - split; assumption.
Defined.

End AnalysisProperties.

(** ** Degenerate and rescaled samples *)

Section DegenerateFacts.

Variable G : rnd.BitGenerator.

Lemma integers_lt (rng : rnd.state G) (n : nat) :
  (0 < n)%nat -> (fst (rnd.integers G rng n) < n)%nat.
Proof.
  intros Hn. unfold rnd.integers. destruct (rnd.next_raw G rng) as [r rng']. simpl.
  assert (H : (r mod N.of_nat n < N.of_nat n)%N) by (apply N.mod_lt; lia).
  lia.
Qed.

(** A resample of a non-empty sample holds values of the sample only. *)
Lemma choice_in (a : list Qc) (n : nat) :
  a <> [] ->
  forall (rng : rnd.state G) (x : Qc), In x (fst (rnd.choice G rng a n)) -> In x a.
Proof.
  intros Ha. induction n as [|n IH]; intros rng x; simpl; [tauto|].
  assert (Hi := @integers_lt rng (length a)).
  destruct (rnd.integers G rng (length a)) as [i rng1].
  specialize (IH rng1). destruct (rnd.choice G rng1 a n) as [rest rng2].
  simpl in *. intros [<-|Hx]; [|now apply IH].
  apply nth_In, Hi. destruct a; [congruence|simpl; lia].
Qed.

Lemma resample_pairs_in (a b : list Qc) (n : nat) :
  a <> [] -> b <> [] ->
  forall (rng : rnd.state G) (ab : list Qc * list Qc),
    In ab (resample_pairs G rng a b n) ->
    (forall x, In x (fst ab) -> In x a) /\ (forall x, In x (snd ab) -> In x b).
Proof.
  intros Ha Hb. induction n as [|n IH]; intros rng ab; simpl; [tauto|].
  assert (Hia := @choice_in a (length a) Ha rng).
  destruct (rnd.choice G rng a (length a)) as [a_s rng1].
  assert (Hib := @choice_in b (length b) Hb rng1).
  destruct (rnd.choice G rng1 b (length b)) as [b_s rng2].
  simpl in *. intros [<-|H]; [now split|exact (IH rng2 ab H)].
Qed.

Lemma Qc_of_nat_S (n : nat) : Qc_of_nat (S n) = 1 + Qc_of_nat n.
Proof.
  apply Qc_is_canon. unfold Qc_of_nat. rewrite this_plus, !this_Qc_of_Z.
  rewrite Nat2Z.inj_succ. unfold Z.succ. rewrite inject_Z_plus.
  change (this 1) with (inject_Z 1). ring.
Qed.

Lemma sum_const (c : Qc) (l : list Qc) :
  (forall x, In x l -> x = c) -> np.sum l = Qc_of_nat (length l) * c.
Proof.
  induction l as [|x l IH]; intros H.
  - simpl. change (Qc_of_nat 0) with 0. ring.
  - cbn [np.sum fold_right length]. fold (np.sum l).
    rewrite (H x) by now left. rewrite IH by (intros y Hy; apply H; now right).
    rewrite Qc_of_nat_S. ring.
Qed.

(** The mean of a sample whose values are all [c]. *)
Lemma mean_const (c : Qc) (l : list Qc) :
  l <> [] -> (forall x, In x l -> x = c) -> sample_mean l = c.
Proof.
  intros Hne H. unfold sample_mean. rewrite (@sum_const c l H), Qcmult_comm.
  apply Qcdiv_mult_l. unfold Qc_of_nat. rewrite Qc_of_Z_eq0.
  destruct l; [congruence|simpl; lia].
Qed.

(** The quantile of a list whose values are all [v]. *)
Lemma linear_quantile_const (v q : Qc) (l : list Qc) :
  l <> [] -> (forall x, In x l -> x = v) -> 0 <= q -> q <= 1 ->
  np.linear_quantile l q = v.
Proof.
  intros Hne H H0 H1.
  assert (Hn : (1 <= length l)%nat) by (destruct l; [congruence|simpl; lia]).
  destruct (@linear_quantile_between l q Hne H0 H1) as [L U].
  rewrite (H _ (@sort_nth_In l 0 ltac:(lia))) in L.
  rewrite (H _ (@sort_nth_In l (length l - 1) ltac:(lia))) in U.
  now apply Qcle_antisym.
Qed.






End DegenerateFacts.

Section DegenerateProperties.

(** X20.  A validated input whose control sample holds only zeros cannot be
    analysed: for every winsor proportion <= 1, alpha in [0, 2] and
    n_boot >= 0, every bootstrap iteration is excluded and [analyze_ab] fails
    with the IndexError of the quantile of an empty array. *)
Theorem analysis_fails_on_a_zero_control
    (parse : string -> float) (t_sf : R -> R -> R)
    (mannwhitneyu : Series -> Series -> float * float) (G : rnd.BitGenerator)
    (w : rnd.World) (df : pd.DataFrame) (g v : string) (winsor0 alpha0 : Qc)
    (n_boot : Z) (a b : Series) :
  check_inputs parse df g v = Ok (a, b) ->
  (forall x, In x a -> x = 0) ->
  winsor0 <= 1 -> 0 <= alpha0 -> alpha0 <= Qc_of_Z 2 -> (0 <= n_boot)%Z ->
  analyze_ab parse t_sf mannwhitneyu G w df g v winsor0 alpha0 n_boot
  = Err Quantile_of_empty_array.
Proof.
  intros Hc Hzero Hw H0 H2 Hn. unfold analyze_ab. rewrite Hc. cbn [bind].
  (* the samples after the Winsorizer *)
  assert (Hwg : exists a1 b1, winsorize_groups winsor0 a b = Ok (a1, b1) /\
                              forall x, In x a1 -> x = 0).
  { unfold winsorize_groups. destruct (Qcltb 0 winsor0).
    - destruct (winsorize a winsor0) as [a1|e] eqn:Ea.
      2:{ destruct (winsorize_shape a Hw) as [[E _]|[_ [_ E]]]; congruence. }
      destruct (winsorize b winsor0) as [b1|e] eqn:Eb.
      2:{ destruct (winsorize_shape b Hw) as [[E _]|[_ [_ E]]]; congruence. }
      exists a1, b1. split; [reflexivity|]. intros y Hy.
      destruct (@winsorize_values_between a a1 winsor0 Hw Ea y Hy)
        as [x1 [x2 [Hx1 [Hx2 [L U]]]]].
      rewrite (Hzero _ Hx1) in L. rewrite (Hzero _ Hx2) in U.
      now apply Qcle_antisym.
    - exists a, b. now split. }
  destruct Hwg as [a1 [b1 [-> Hzero1]]]. cbn [bind].
  unfold welch_t_test, mann_whitney.
  destruct (st.ttest_ind_welch t_sf a1 b1) as [t tp].
  destruct (mannwhitneyu a1 b1) as [u up]. cbn [bind].
  rewrite (@bootstrap_lift_ci_unfolded G w a1 b1 n_boot alpha0 default_seed
             (rnd.seed_state G 42%N) eq_refl).
  assert (E : (n_boot <? 0)%Z = false) by now apply Z.ltb_ge.
  rewrite E, not_nan_all_nan, percentile_interval_cases.
  - assert (V : np.valid_percentile (alpha0 / Qc_of_Z 2) = true)
      by now apply half_alpha_valid_iff.
    now rewrite V.
  - intros ab Hab. apply lift_entry_of_zeros.
    apply (@resample_pairs_values G (fun x => x = 0) a1 b1 (Z.to_nat n_boot)
             eq_refl Hzero1 _ ab Hab).
Qed.

Lemma analysis_fails_on_a_zero_control_witness :
  analyze_ab parse_decimal sample_sf count_u lcg zero_world
             zero_control_frame "group" "revenue" 0 default_alpha 10
  = Err Quantile_of_empty_array.
Proof.
  destruct (check_inputs parse_decimal zero_control_frame "group" "revenue")
    as [[a b]|e] eqn:E; [|vm_compute in E; discriminate E].
  apply (@analysis_fails_on_a_zero_control parse_decimal sample_sf count_u lcg
           zero_world zero_control_frame "group" "revenue" 0 default_alpha 10 a b E).
  - assert (Ha : a = pd.loc (cleaned parse_decimal zero_control_frame "group" "revenue")
                       (pd.Text "A")).
    { assert (E' := @check_inputs_two_labels parse_decimal zero_control_frame
                      "group" "revenue" (pd.Text "A") (pd.Text "B")
                      eq_refl eq_refl ltac:(discriminate)).
      rewrite E' in E.
      - now injection E as <- _.
      - intros l. vm_compute. intuition.
      - reflexivity. }
    intros x Hx. rewrite Ha in Hx. apply Qc_is_canon.
    vm_compute in Hx. repeat (destruct Hx as [<-|Hx]; [reflexivity|]). contradiction.
  - vm_compute. discriminate.
  - vm_compute. discriminate.
  - vm_compute. discriminate.
  - lia.
Defined.

(** X21.  For constant samples, A all equal to c (c not 0) and B all equal
    to d, every resample has the means c and d whatever the generator draws,
    and for n_boot >= 1 and alpha in [0, 2] both bounds are exactly
    (d - c) / c. *)
Theorem bootstrap_of_constant_samples
    (G : rnd.BitGenerator) (w : rnd.World) (a b : Series) (c d : Qc)
    (n_boot : Z) (alpha0 : Qc) (seed : option Z) (rng : rnd.state G) :
  a <> [] -> b <> [] ->
  (forall x, In x a -> x = c) -> (forall x, In x b -> x = d) -> c <> 0 ->
  (1 <= n_boot)%Z -> 0 <= alpha0 -> alpha0 <= Qc_of_Z 2 ->
  rnd.default_rng G seed w = Ok rng ->
  bootstrap_lift_ci G w a b n_boot alpha0 seed = Ok ((d - c) / c, (d - c) / c).
Proof.
  intros Ha Hb Hac Hbd Hc Hn H0 H2 Hrng.
  rewrite (@bootstrap_lift_ci_retained G w a b n_boot alpha0 seed rng)
    by (assumption || lia).
  set (pairs := resample_pairs G rng a b (Z.to_nat n_boot)).
  assert (Hlen : length pairs = Z.to_nat n_boot) by apply resample_pairs_length.
  (* every pair is retained, with the same lift *)
  assert (Hret : forall l : list (list Qc * list Qc),
             (forall ab, In ab l -> In ab pairs) ->
             retained_lifts l = repeat ((d - c) / c) (length l)).
  { induction l as [|ab l IH]; intros Hin; [reflexivity|].
    unfold retained_lifts in *. cbn [flat_map length repeat].
    rewrite IH by (intros ab' H'; apply Hin; now right).
    assert (Hab : In ab pairs) by (apply Hin; now left).
    destruct (@resample_pairs_in G a b _ Ha Hb _ ab Hab) as [Pa Pb].
    destruct (@resample_pairs_sizes G a b _ _ ab Hab) as [La Lb].
    assert (Na : fst ab <> []) by (intros E; rewrite E in La; destruct a; [congruence|discriminate La]).
    assert (Nb : snd ab <> []) by (intros E; rewrite E in Lb; destruct b; [congruence|discriminate Lb]).
    rewrite (@mean_const c (fst ab) Na (fun x Hx => Hac x (Pa x Hx))).
    rewrite (@mean_const d (snd ab) Nb (fun x Hx => Hbd x (Pb x Hx))).
    apply Qceqb_neq in Hc. now rewrite Hc. }
  rewrite (Hret pairs (fun ab H => H)), Hlen, percentile_interval_cases.
  assert (V : np.valid_percentile (alpha0 / Qc_of_Z 2) = true)
    by now apply half_alpha_valid_iff.
  rewrite V.
  destruct (Z.to_nat n_boot) as [|n] eqn:En; [lia|].
  cbn [repeat]. fold (repeat ((d - c) / c) (S n)).
  assert (Hq : forall q, np.valid_percentile q = true ->
                         np.linear_quantile (repeat ((d - c) / c) (S n)) q = (d - c) / c).
  { intros q Vq. apply valid_percentile_iff in Vq. destruct Vq.
    apply linear_quantile_const; try assumption; [discriminate|].
    intros x Hx. now apply repeat_spec in Hx. }
  rewrite !Hq; [reflexivity| |exact V].
  now rewrite valid_one_minus.
Qed.

Lemma bootstrap_of_constant_samples_witness :
  bootstrap_lift_ci lcg zero_world constant_A constant_B 20 default_alpha default_seed
  = Ok ((Qc_of_Z 12 - Qc_of_Z 10) / Qc_of_Z 10, (Qc_of_Z 12 - Qc_of_Z 10) / Qc_of_Z 10).
Proof.
  apply (@bootstrap_of_constant_samples lcg zero_world constant_A constant_B
           (Qc_of_Z 10) (Qc_of_Z 12) 20 default_alpha default_seed 42%N).
  - discriminate.
  - discriminate.
  - intros x Hx. simpl in Hx.
    repeat (destruct Hx as [<-|Hx]; [reflexivity|]). contradiction.
  - intros x Hx. simpl in Hx.
    repeat (destruct Hx as [<-|Hx]; [reflexivity|]). contradiction.
  - intros E. apply (f_equal this) in E. vm_compute in E. discriminate E.
  - lia.
  - vm_compute. discriminate.
  - vm_compute. discriminate.
  - reflexivity.
Defined.



End DegenerateProperties.

Section AnalysisFailureProperties.

(** X23.  The winsor proportion is not validated: on a validated input every
    proportion above 1 makes [analyze_ab] fail with the out-of-range
    ValueError of the first quantile call, before any statistic is
    computed. *)
Theorem analysis_rejects_winsor_above_one
    (parse : string -> float) (t_sf : R -> R -> R)
    (mannwhitneyu : Series -> Series -> float * float) (G : rnd.BitGenerator)
    (w : rnd.World) (df : pd.DataFrame) (g v : string) (winsor0 alpha0 : Qc)
    (n_boot : Z) (a b : Series) :
  check_inputs parse df g v = Ok (a, b) -> 1 < winsor0 ->
  analyze_ab parse t_sf mannwhitneyu G w df g v winsor0 alpha0 n_boot
  = Err Percentile_out_of_range /\
  pd.calls (winsorize_series a winsor0) = [pd.call_quantile winsor0].
Proof.
  intros Hc Hw. split.
  - unfold analyze_ab. rewrite Hc. cbn [bind]. unfold winsorize_groups.
    assert (E : Qcltb 0 winsor0 = true).
    { apply Qcltb_lt. apply Qclt_trans with 1; [reflexivity|exact Hw]. }
    rewrite E, (winsorize_above_one a Hw). reflexivity.
  - unfold winsorize_series.
    assert (E0 : Qcleb winsor0 0 = false).
    { apply Qcleb_gt. apply Qclt_trans with 1; [reflexivity|exact Hw]. }
    assert (E1 : np.valid_percentile winsor0 = false).
    { unfold np.valid_percentile.
      assert (E : Qcleb winsor0 1 = false) by now apply Qcleb_gt.
      rewrite E. apply andb_false_r. }
    rewrite E0. unfold pd.quantile, pd.tbind, pd.calls. now rewrite E1.
Qed.

Lemma analysis_rejects_winsor_above_one_witness :
  analyze_ab parse_decimal sample_sf count_u lcg zero_world
             variant_first_frame "group" "revenue" (frac 3 2) default_alpha 10
  = Err Percentile_out_of_range.
Proof.
  destruct (check_inputs parse_decimal variant_first_frame "group" "revenue")
    as [[a b]|e] eqn:E; [|vm_compute in E; discriminate E].
  apply (@analysis_rejects_winsor_above_one parse_decimal sample_sf count_u lcg
           zero_world variant_first_frame "group" "revenue" (frac 3 2)
           default_alpha 10 a b E).
  vm_compute. reflexivity.
Defined.

End AnalysisFailureProperties.
